(** * The bit reader and the level_prefix parser of codec/h264/h264dec/fuzz

    A shallow embedding of [helpers.c] ([new_BitReader], [next_byte],
    [read_bits]) and of [fuzzParseLevelPrefix/parse_level_prefix.c]
    ([read_levelprefix]), with the properties the specification states
    about them. *)

From Stdlib Require Import ZArith List Bool Lia.
From Stdlib.Strings Require Import Byte.
From Equations Require Import Equations.
Import ListNotations.

Local Open Scope Z_scope.

(** ** The C machine *)

(** What C leaves to the implementation and the two functions depend on.
    [char_signed]: whether plain [char] is a signed type (it is on x86-64,
    it is not on ARM Linux).  [mask_undefined n]: the [int] the expression
    [(1 << n) - 1] evaluates to where the language does not define the
    shift, that is outside [0 <= n <= 30] for a 32-bit [int].
    [shift_undefined a c]: what [a >> c] yields on a [uint64_t] where the
    language does not define it, that is for a count outside
    [0 <= c <= 63]. *)
Record Target : Type := mkTarget {
  char_signed : bool;
  mask_undefined : Z -> Z;
  shift_undefined : Z -> Z -> Z
}.

(** Two's-complement reduction to a 32-bit [int]. *)
Definition wrap32 (z : Z) : Z := (z + 2 ^ 31) mod 2 ^ 32 - 2 ^ 31.

(** Conversion to [uint64_t]: reduction modulo [2^64]. *)
Definition to_uint64 (z : Z) : Z := z mod 2 ^ 64.

(** Conversion of a [uint64_t] to [int], as in [b = read_bits(br,1)]. *)
Definition int_of_uint64 (z : Z) : Z := wrap32 z.

(** What a 32-bit shift instruction that keeps the low five bits of its
    count makes of [(1 << n) - 1], with wrap-around [int] arithmetic. *)
Definition mask_mod32 (n : Z) : Z :=
  wrap32 (wrap32 (Z.shiftl 1 (n mod 32)) - 1).

(** What a 64-bit shift instruction that keeps the low six bits of its
    count makes of [a >> c]. *)
Definition shr_mod64 (a c : Z) : Z := Z.shiftr a (c mod 64).

(** x86-64 Linux with gcc or clang: plain [char] is signed. *)
Definition x86_64 : Target := mkTarget true mask_mod32 shr_mod64.

(** AArch64 Linux: plain [char] is unsigned. *)
Definition aarch64 : Target := mkTarget false mask_mod32 shr_mod64.

(** The value of an object of type [char] holding the byte [b]. *)
Definition byte_val (b : byte) : Z := Z.of_N (Byte.to_N b).

Definition char_of_byte (t : Target) (b : byte) : Z :=
  if char_signed t && (128 <=? byte_val b) then byte_val b - 256
  else byte_val b.

(** [(1 << n) - 1], an [int]. *)
Definition int_mask (t : Target) (n : Z) : Z :=
  if (0 <=? n) && (n <=? 30) then Z.shiftl 1 n - 1 else mask_undefined t n.

(** [a >> c] on a [uint64_t] [a], the count [c] an [int]. *)
Definition shr_uint64 (t : Target) (a c : Z) : Z :=
  if (0 <=? c) && (c <? 64) then Z.shiftr a c else shift_undefined t a c.

(** Memory as seen through a [char*]: the byte at each offset from the
    pointer.  A buffer of [len] bytes occupies the offsets [0 .. len-1];
    what the other offsets hold is not the program's to know. *)
Definition memory : Type := Z -> byte.

(** ** The data model ([helpers.h]) *)

(** The [int] fields of the two structs are taken in [Z]: overflow of a
    signed integer is undefined in C, and [curr], [nRead] and [bits] stay
    within the length of the buffer, which is itself an [int], and a few
    bits more.  The accumulator is a [uint64_t] and its wrap-around is
    written out; so is that of the counter of [read_levelprefix], which
    counts bits and can pass [2^31] on a buffer of more than [2^28]
    bytes. *)

Module Reader.
(** [struct Reader].  [loads] is a history variable, not a field of the
    struct: the offsets at which [data] has been dereferenced, the most
    recent one first. *)
Record t : Type := mk {
  data : memory;
  curr : Z;
  len : Z;
  err : Z;
  loads : list Z
}.
End Reader.

Module BitReader.
(** [struct BitReader]; the [Reader] it points to is owned by it alone,
    so it is kept inside the record. *)
Record t : Type := mk {
  r : Reader.t;
  n : Z;
  bits : Z;
  nRead : Z;
  err : Z
}.
End BitReader.

(** ** The operations ([helpers.c]) *)

(** [new_BitReader(d, l)], when both allocations succeed. *)
Definition new_BitReader (d : memory) (l : Z) : BitReader.t :=
  BitReader.mk (Reader.mk d 0 l 0 []) 0 0 0 0.

(** [next_byte]: the bounds test only raises [err]; the load and the
    increment that follow it are executed on both paths. *)
Definition next_byte (t : Target) (r : Reader.t) : Z * Reader.t :=
  let err' := if Reader.curr r >=? Reader.len r then 1 else Reader.err r in
  let next := char_of_byte t (Reader.data r (Reader.curr r)) in
  (next,
   Reader.mk (Reader.data r) (Reader.curr r + 1) (Reader.len r) err'
             (Reader.curr r :: Reader.loads r)).

(** [read_bits]: the refill loop followed by the extraction.  Each round of
    the loop that does not return adds 8 to [bits], so [n - bits] is a
    measure for it. *)
Equations? read_bits (t : Target) (br : BitReader.t) (n : Z) : Z * BitReader.t
  by wf (Z.to_nat (n - BitReader.bits br)) lt :=
  read_bits t br n with Z_gt_dec n (BitReader.bits br) => {
    | left _ with next_byte t (BitReader.r br) => {
      | (b, r') with Z.eqb (Reader.err r') 0 => {
        | false :=
            (0, BitReader.mk r' (BitReader.n br) (BitReader.bits br)
                             (BitReader.nRead br) 1)
        | true :=
            read_bits t
              (BitReader.mk r'
                 (Z.lor (to_uint64 (Z.shiftl (BitReader.n br) 8))
                        (to_uint64 b))
                 (BitReader.bits br + 8)
                 (BitReader.nRead br + 1)
                 (BitReader.err br))
              n } }
    | right _ :=
        (Z.land (shr_uint64 t (BitReader.n br) (BitReader.bits br - n))
                (to_uint64 (int_mask t n)),
         BitReader.mk (BitReader.r br) (BitReader.n br)
                      (BitReader.bits br - n) (BitReader.nRead br)
                      (BitReader.err br)) }.
Proof. simpl. lia. Qed.

(** ** The parser ([parse_level_prefix.c]) *)

(** The [for] loop of [read_levelprefix], entered at its test [!b].  The
    loop has no bound of its own, so the model takes the number of rounds it
    may run: [None] when they do not suffice.  [leadingZeroBits] is an
    [int]: its increment is reduced to 32 bits, the two's-complement
    wrap-around being what the targets make of an overflow that C leaves
    undefined. *)
Fixpoint read_levelprefix_loop (t : Target) (fuel : nat) (br : BitReader.t)
    (leadingZeroBits b : Z) : option (Z * BitReader.t) :=
  if b =? 0 then
    match fuel with
    | O => None
    | S fuel' =>
        let '(v, br') := read_bits t br 1 in
        if negb (BitReader.err br' =? 0) then Some (-1, br')
        else read_levelprefix_loop t fuel' br'
                                   (wrap32 (leadingZeroBits + 1))
                                   (int_of_uint64 v)
    end
  else Some (leadingZeroBits, br).

Definition read_levelprefix (t : Target) (fuel : nat) (br : BitReader.t)
  : option (Z * BitReader.t) :=
  read_levelprefix_loop t fuel br (-1) 0.

(** ** Buffers and bit strings *)

(** A buffer laid out at the pointer, with [beyond] around it. *)
Definition place (buf : list byte) (beyond : memory) : memory :=
  fun i =>
    if (0 <=? i) && (i <? Z.of_nat (length buf))
    then nth (Z.to_nat i) buf x00
    else beyond i.

(** The reader [new_BitReader] returns for a buffer. *)
Definition fresh (buf : list byte) (beyond : memory) : BitReader.t :=
  new_BitReader (place buf beyond) (Z.of_nat (length buf)).

(** The eight bits of a byte, most significant first. *)
Definition bits_of_byte (b : byte) : list bool :=
  map (Z.testbit (byte_val b)) [7; 6; 5; 4; 3; 2; 1; 0].

(** The buffer as one bit string read from left to right. *)
Definition bitstring (buf : list byte) : list bool :=
  flat_map bits_of_byte buf.

(** The unsigned integer a bit string denotes, first bit most significant. *)
Definition bits_value (l : list bool) : Z :=
  fold_left (fun acc b => 2 * acc + Z.b2z b) l 0.

(** A sequence of [read_bits] calls: the values returned, in order, and the
    reader they leave. *)
Fixpoint run (t : Target) (br : BitReader.t) (calls : list Z)
  : list Z * BitReader.t :=
  match calls with
  | [] => ([], br)
  | n :: calls' =>
      let '(v, br') := read_bits t br n in
      let '(vs, br'') := run t br' calls' in
      (v :: vs, br'')
  end.

(** Memory that holds zero bytes around the buffer. *)
Definition silence : memory := fun _ => x00.

(** The bits a sequence of calls asks for. *)
Definition consumed (calls : list Z) : Z := fold_right Z.add 0 calls.

(** The two values a value of [n + m] bits splits into at the boundary
    [m] bits from its end. *)
Definition split_at (m v : Z) : list Z := [v / 2 ^ m; v mod 2 ^ m].

(** Bit [k] of the string is the first one bit: the [k] bits before it are
    zero and bit [k] is there and is one. *)
Definition first_one_at (l : list bool) (k : nat) : Prop :=
  firstn k l = repeat false k /\ nth_error l k = Some true.

(** ** States of the reader *)

(** The reader after a round of the refill loop that fetched [b]. *)
Definition refilled (br : BitReader.t) (b : Z) (r' : Reader.t) : BitReader.t :=
  BitReader.mk r'
    (Z.lor (to_uint64 (Z.shiftl (BitReader.n br) 8)) (to_uint64 b))
    (BitReader.bits br + 8) (BitReader.nRead br + 1) (BitReader.err br).

(** The reader after the error return of the refill loop. *)
Definition failed (br : BitReader.t) (r' : Reader.t) : BitReader.t :=
  BitReader.mk r' (BitReader.n br) (BitReader.bits br) (BitReader.nRead br) 1.

(** The value and the reader after the extraction of [n] bits. *)
Definition extracted (t : Target) (br : BitReader.t) (n : Z)
  : Z * BitReader.t :=
  (Z.land (shr_uint64 t (BitReader.n br) (BitReader.bits br - n))
          (to_uint64 (int_mask t n)),
   BitReader.mk (BitReader.r br) (BitReader.n br) (BitReader.bits br - n)
                (BitReader.nRead br) (BitReader.err br)).

(** [synced buf beyond rest br]: no error has occurred, [br] reads the
    buffer [buf], and the bits still to come are [rest]: the [bits] pending
    ones, held in the low bits of the accumulator, followed by the bytes not
    yet fetched. *)
Record synced (buf : list byte) (beyond : memory) (rest : list bool)
    (br : BitReader.t) : Prop := mk_synced {
  sy_data : Reader.data (BitReader.r br) = place buf beyond;
  sy_len : Reader.len (BitReader.r br) = Z.of_nat (length buf);
  sy_curr : 0 <= Reader.curr (BitReader.r br) <= Z.of_nat (length buf);
  sy_nRead : BitReader.nRead br = Reader.curr (BitReader.r br);
  sy_rerr : Reader.err (BitReader.r br) = 0;
  sy_err : BitReader.err br = 0;
  sy_loads :
    Forall (fun i => 0 <= i < Z.of_nat (length buf))
           (Reader.loads (BitReader.r br));
  sy_pending :
    exists pend : list bool,
      Z.of_nat (length pend) = BitReader.bits br /\
      rest = pend
             ++ bitstring (skipn (Z.to_nat (Reader.curr (BitReader.r br))) buf)
      /\ BitReader.n br mod 2 ^ BitReader.bits br = bits_value pend;
  sy_small : BitReader.bits br <= 63
}.

(** When [read_bits] may be trusted for [k] bits: always on a target with an
    unsigned [char]; on one with a signed [char] only if no refill happens or
    a single one does, into an empty accumulator window. *)
Definition clean (t : Target) (br : BitReader.t) (k : Z) : Prop :=
  char_signed t = false \/ k <= BitReader.bits br \/
  (BitReader.bits br = 0 /\ k <= 8).

(** The error flag of the [BitReader] is raised only with that of its
    [Reader]. *)
Definition linked (br : BitReader.t) : Prop :=
  BitReader.err br <> 0 -> Reader.err (BitReader.r br) <> 0.

(** Two memories that hold the same [l] bytes at the pointer. *)
Definition agree (l : Z) (d1 d2 : memory) : Prop :=
  forall i, 0 <= i < l -> d1 i = d2 i.

(** Two readers that differ at most in what their memories hold outside the
    buffer. *)
Record same_view (br1 br2 : BitReader.t) : Prop := mk_same_view {
  sv_agree :
    agree (Reader.len (BitReader.r br1))
          (Reader.data (BitReader.r br1)) (Reader.data (BitReader.r br2));
  sv_curr : Reader.curr (BitReader.r br1) = Reader.curr (BitReader.r br2);
  sv_pos : 0 <= Reader.curr (BitReader.r br1);
  sv_len : Reader.len (BitReader.r br1) = Reader.len (BitReader.r br2);
  sv_rerr : Reader.err (BitReader.r br1) = Reader.err (BitReader.r br2);
  sv_loads : Reader.loads (BitReader.r br1) = Reader.loads (BitReader.r br2);
  sv_n : BitReader.n br1 = BitReader.n br2;
  sv_bits : BitReader.bits br1 = BitReader.bits br2;
  sv_nRead : BitReader.nRead br1 = BitReader.nRead br2;
  sv_err : BitReader.err br1 = BitReader.err br2
}.

(** Every load of the reader so far was inside its buffer. *)
Definition in_bounds (r : Reader.t) : Prop :=
  Forall (fun i => 0 <= i < Reader.len r) (Reader.loads r).

(** The position is not negative, and while no error has been raised no
    load has left the buffer. *)
Definition safe (r : Reader.t) : Prop :=
  0 <= Reader.curr r /\ (Reader.err r = 0 -> in_bounds r).

(** The [int] counter [lz] after [j] increments. *)
Definition counted (lz : Z) (j : nat) : Z :=
  match j with
  | O => lz
  | S _ => wrap32 (lz + Z.of_nat j)
  end.

(** [k] successive calls of [next_byte]: the values returned, in order, and
    the reader they leave. *)
Fixpoint next_bytes (t : Target) (r : Reader.t) (k : nat)
  : list Z * Reader.t :=
  match k with
  | O => ([], r)
  | S k' =>
      let '(b, r') := next_byte t r in
      let '(bs, r'') := next_bytes t r' k' in
      (b :: bs, r'')
  end.

(** The numbers a bit string yields when it is cut, from the left, into
    pieces of the lengths [calls]. *)
Fixpoint chunks (calls : list Z) (bs : list bool) : list Z :=
  match calls with
  | [] => []
  | n :: calls' =>
      bits_value (firstn (Z.to_nat n) bs)
      :: chunks calls' (skipn (Z.to_nat n) bs)
  end.

(** What every reader reached from [new_BitReader(d, l)] satisfies: the
    pointer and the length are the ones given, the two error flags are
    equal and are 0 or 1, [nRead] counts the fetches that succeeded, and the
    bit count is not negative. *)
Record wellformed (d : memory) (l : Z) (br : BitReader.t) : Prop :=
  mk_wellformed {
  wf_data : Reader.data (BitReader.r br) = d;
  wf_len : Reader.len (BitReader.r br) = l;
  wf_flags : Reader.err (BitReader.r br) = BitReader.err br;
  wf_flag : BitReader.err br = 0 \/ BitReader.err br = 1;
  wf_nRead : 0 <= BitReader.nRead br <= Reader.curr (BitReader.r br);
  wf_nRead_len : BitReader.nRead br <= Z.max 0 l;
  wf_curr : BitReader.err br = 0 ->
            Reader.curr (BitReader.r br) = BitReader.nRead br;
  wf_over : BitReader.err br <> 0 -> l <= BitReader.nRead br;
  wf_bits : 0 <= BitReader.bits br
}.

(** [drained buf rest br]: the reader has fetched every byte of [buf] and
    has then failed; the bits [rest] it had not handed out are all pending
    in the accumulator. *)
Record drained (buf : list byte) (rest : list bool) (br : BitReader.t)
  : Prop := mk_drained {
  dr_err : BitReader.err br = 1;
  dr_rerr : Reader.err (BitReader.r br) = 1;
  dr_nRead : BitReader.nRead br = Z.of_nat (length buf);
  dr_bits : Z.of_nat (length rest) = BitReader.bits br;
  dr_pending : BitReader.n br mod 2 ^ BitReader.bits br = bits_value rest;
  dr_small : BitReader.bits br <= 63
}.

Arguments to_uint64 : simpl never.
Arguments wrap32 : simpl never.
Arguments int_mask : simpl never.
Arguments char_of_byte : simpl never.
Arguments shr_uint64 : simpl never.

(** ** Arithmetic of the accumulator *)

Lemma byte_val_range (b : byte) : 0 <= byte_val b < 256.
Proof.
  unfold byte_val. pose proof (Byte.to_N_bounded b). lia.
Qed.

Lemma to_uint64_small (z : Z) : 0 <= z < 2 ^ 64 -> to_uint64 z = z.
Proof. intros H. unfold to_uint64. now apply Z.mod_small. Qed.

Lemma wrap32_small (z : Z) : - 2 ^ 31 <= z < 2 ^ 31 -> wrap32 z = z.
Proof. intros H. unfold wrap32. rewrite Z.mod_small; lia. Qed.

(** The low eight bits of the converted [char] are the byte, whatever the
    signedness of [char]. *)
Lemma char_low_byte (t : Target) (b : byte) :
  to_uint64 (char_of_byte t b) mod 2 ^ 8 = byte_val b.
Proof.
  pose proof (byte_val_range b) as Hb.
  unfold to_uint64, char_of_byte.
  destruct (char_signed t && (128 <=? byte_val b)).
  - replace (byte_val b - 256) with (byte_val b + (-1) * 2 ^ 8) by lia.
    rewrite Z.mod_mod_divide by (exists (2 ^ 56); reflexivity).
    rewrite Z.mod_add by lia. apply Z.mod_small. lia.
  - rewrite (Z.mod_small (byte_val b)) by lia. apply Z.mod_small. lia.
Qed.

(** With an unsigned [char] the conversion is the byte itself. *)
Lemma char_unsigned (t : Target) (b : byte) :
  char_signed t = false -> to_uint64 (char_of_byte t b) = byte_val b.
Proof.
  intros Hu. pose proof (byte_val_range b) as Hb.
  unfold char_of_byte. rewrite Hu, andb_false_l. apply to_uint64_small. lia.
Qed.

(** With a signed [char] a byte of 128 or more sets the 56 bits above it. *)
Lemma char_sign_extends (t : Target) (b : byte) :
  char_signed t = true -> 128 <= byte_val b ->
  to_uint64 (char_of_byte t b) = 2 ^ 64 - 256 + byte_val b.
Proof.
  intros Hs Hb. pose proof (byte_val_range b) as Hr.
  unfold char_of_byte, to_uint64. rewrite Hs.
  replace (128 <=? byte_val b) with true by (symmetry; apply Z.leb_le; lia).
  rewrite andb_true_l.
  replace (byte_val b - 256) with (2 ^ 64 - 256 + byte_val b + (-1) * 2 ^ 64)
    by lia.
  rewrite Z.mod_add by lia. apply Z.mod_small. lia.
Qed.

(** [lor] of a multiple of 256 and a byte is their sum. *)
Lemma lor_low_byte (hi lo : Z) :
  0 <= lo < 2 ^ 8 -> Z.lor (hi * 2 ^ 8) lo = hi * 2 ^ 8 + lo.
Proof.
  intros Hlo.
  assert (Hand : Z.land (hi * 2 ^ 8) lo = 0).
  { apply Z.bits_inj'. intros i Hi.
    rewrite Z.land_spec, Z.bits_0.
    destruct (Z.lt_ge_cases i 8) as [Hlt | Hge].
    - rewrite Z.mul_pow2_bits_low by lia. reflexivity.
    - rewrite <- (Z.mod_small lo (2 ^ 8)) by lia.
      rewrite Z.mod_pow2_bits_high by lia. apply andb_false_r. }
  pose proof (Z.add_lor_land (hi * 2 ^ 8) lo) as Hsum. lia.
Qed.

Lemma pow2_divides (i j : Z) : 0 <= i <= j -> (2 ^ i | 2 ^ j).
Proof.
  intros H. exists (2 ^ (j - i)).
  rewrite <- Z.pow_add_r by lia. f_equal. lia.
Qed.

(** One round of the refill loop, [n <<= 8; n |= e], seen through the low
    [k + 8] bits: the [k] pending bits move up and the byte takes the low
    eight, provided [e] carries nothing but the byte below bit [k + 8]. *)
Lemma refill_low (a e k v : Z) :
  0 <= k -> k + 8 <= 64 -> 0 <= v < 2 ^ 8 -> e mod 2 ^ (k + 8) = v ->
  Z.lor (to_uint64 (Z.shiftl a 8)) e mod 2 ^ (k + 8)
  = (a mod 2 ^ k) * 2 ^ 8 + v.
Proof.
  intros Hk Hk64 Hv He.
  rewrite <- Z.land_ones by lia.
  rewrite Z.land_lor_distr_l, !Z.land_ones by lia.
  rewrite He. unfold to_uint64.
  rewrite Z.mod_mod_divide by (apply pow2_divides; lia).
  rewrite Z.shiftl_mul_pow2 by lia.
  rewrite Z.pow_add_r by lia.
  rewrite Z.mul_mod_distr_r by (apply Z.pow_nonzero; lia).
  apply lor_low_byte. exact Hv.
Qed.

(** The mask is [n] ones wherever C defines the shift. *)
Lemma int_mask_ones (t : Target) (k : Z) :
  0 <= k <= 30 -> to_uint64 (int_mask t k) = Z.ones k.
Proof.
  intros Hk. unfold int_mask.
  replace (0 <=? k) with true by (symmetry; apply Z.leb_le; lia).
  replace (k <=? 30) with true by (symmetry; apply Z.leb_le; lia).
  rewrite andb_true_l, Z.shiftl_1_l, Z.ones_equiv.
  assert (0 < 2 ^ k <= 2 ^ 30).
  { split; [apply Z.pow_pos_nonneg; lia | apply Z.pow_le_mono_r; lia]. }
  apply to_uint64_small. lia.
Qed.

(** The extraction [(n >> (bits - k)) & ((1 << k) - 1)] takes the top [k] of
    the low [bits] bits of the accumulator. *)
Lemma shr_uint64_defined (t : Target) (a c : Z) :
  0 <= c < 64 -> shr_uint64 t a c = Z.shiftr a c.
Proof.
  intros Hc. unfold shr_uint64.
  replace (0 <=? c) with true by (symmetry; apply Z.leb_le; lia).
  replace (c <? 64) with true by (symmetry; apply Z.ltb_lt; lia).
  reflexivity.
Qed.

Lemma extract_top (t : Target) (a bits k : Z) :
  0 <= k <= 30 -> k <= bits -> bits - k < 64 ->
  Z.land (shr_uint64 t a (bits - k)) (to_uint64 (int_mask t k))
  = (a mod 2 ^ bits) / 2 ^ (bits - k).
Proof.
  intros Hk Hb H64.
  rewrite shr_uint64_defined by lia.
  rewrite int_mask_ones, Z.land_ones, Z.shiftr_div_pow2 by lia.
  assert (Hm : 0 < 2 ^ (bits - k)) by (apply Z.pow_pos_nonneg; lia).
  assert (Hp : 0 < 2 ^ k) by (apply Z.pow_pos_nonneg; lia).
  replace (2 ^ bits) with (2 ^ (bits - k) * 2 ^ k)
    by (rewrite <- Z.pow_add_r by lia; f_equal; lia).
  rewrite Z.rem_mul_r by lia.
  rewrite Z.mul_comm, Z.div_add by lia.
  rewrite (Z.div_small (a mod 2 ^ (bits - k))) by (apply Z.mod_pos_bound; lia).
  reflexivity.
Qed.

(** ** Bit strings as numbers *)

Lemma bits_value_acc (l : list bool) (acc : Z) :
  fold_left (fun acc b => 2 * acc + Z.b2z b) l acc
  = acc * 2 ^ Z.of_nat (length l) + bits_value l.
Proof.
  unfold bits_value. revert acc.
  induction l as [| b l IH]; intros acc.
  - simpl. lia.
  - cbn [fold_left length]. rewrite IH, (IH (2 * 0 + Z.b2z b)).
    rewrite Nat2Z.inj_succ, Z.pow_succ_r by lia. lia.
Qed.

Lemma bits_value_cons (b : bool) (l : list bool) :
  bits_value (b :: l) = Z.b2z b * 2 ^ Z.of_nat (length l) + bits_value l.
Proof.
  unfold bits_value at 1. cbn [fold_left]. rewrite bits_value_acc. lia.
Qed.

Lemma bits_value_app (l1 l2 : list bool) :
  bits_value (l1 ++ l2)
  = bits_value l1 * 2 ^ Z.of_nat (length l2) + bits_value l2.
Proof.
  unfold bits_value at 1. rewrite fold_left_app.
  fold (bits_value l1). apply bits_value_acc.
Qed.

Lemma bits_value_range (l : list bool) :
  0 <= bits_value l < 2 ^ Z.of_nat (length l).
Proof.
  induction l as [| b l IH].
  - cbn. lia.
  - rewrite bits_value_cons. cbn [length].
    rewrite Nat2Z.inj_succ, Z.pow_succ_r by lia.
    destruct b; cbn [Z.b2z]; lia.
Qed.

Lemma bits_of_byte_length (b : byte) : length (bits_of_byte b) = 8%nat.
Proof. reflexivity. Qed.

Lemma bits_of_byte_value (b : byte) : bits_value (bits_of_byte b) = byte_val b.
Proof. destruct b; reflexivity. Qed.

Lemma bitstring_length (buf : list byte) :
  length (bitstring buf) = (8 * length buf)%nat.
Proof.
  induction buf as [| b buf IH]; [reflexivity |].
  cbn [bitstring flat_map]. rewrite length_app, bits_of_byte_length.
  fold (bitstring buf). rewrite IH. cbn [length]. lia.
Qed.

(** ** One call of [read_bits], step by step *)

(** The body of [read_bits], one round at a time. *)
Lemma read_bits_eq (t : Target) (br : BitReader.t) (n : Z) :
  read_bits t br n =
  if Z_gt_dec n (BitReader.bits br) then
    if Reader.err (snd (next_byte t (BitReader.r br))) =? 0
    then read_bits t (refilled br (fst (next_byte t (BitReader.r br)))
                               (snd (next_byte t (BitReader.r br)))) n
    else (0, failed br (snd (next_byte t (BitReader.r br))))
  else extracted t br n.
Proof.
  match goal with |- _ = ?rhs => remember rhs as body eqn:Hbody end.
  rewrite read_bits_equation_1.
  destruct (Z_gt_dec n (BitReader.bits br)) as [Hgt | Hle].
  - destruct (next_byte t (BitReader.r br)) as [b r'] eqn:Hnext.
    cbn [fst snd] in Hbody.
    destruct (Reader.err r' =? 0) eqn:Herr; simp read_bits;
      rewrite Hnext; simp read_bits; rewrite Herr; simp read_bits;
      rewrite <- ?read_bits_equation_1; subst body; reflexivity.
  - simp read_bits. subst body. reflexivity.
Qed.

Lemma read_bits_enough (t : Target) (br : BitReader.t) (n : Z) :
  n <= BitReader.bits br -> read_bits t br n = extracted t br n.
Proof.
  intros H. rewrite read_bits_eq.
  destruct (Z_gt_dec n (BitReader.bits br)); [lia | reflexivity].
Qed.

Lemma read_bits_refill (t : Target) (br : BitReader.t) (n : Z) :
  n > BitReader.bits br ->
  Reader.err (snd (next_byte t (BitReader.r br))) = 0 ->
  read_bits t br n
  = read_bits t (refilled br (fst (next_byte t (BitReader.r br)))
                          (snd (next_byte t (BitReader.r br)))) n.
Proof.
  intros Hgt Herr. rewrite read_bits_eq at 1.
  destruct (Z_gt_dec n (BitReader.bits br)); [| lia].
  rewrite Herr. reflexivity.
Qed.

Lemma read_bits_fail (t : Target) (br : BitReader.t) (n : Z) :
  n > BitReader.bits br ->
  Reader.err (snd (next_byte t (BitReader.r br))) <> 0 ->
  read_bits t br n = (0, failed br (snd (next_byte t (BitReader.r br)))).
Proof.
  intros Hgt Herr. rewrite read_bits_eq.
  destruct (Z_gt_dec n (BitReader.bits br)); [| lia].
  apply Z.eqb_neq in Herr. rewrite Herr. reflexivity.
Qed.

(** ** The reader in step with the bit string *)

Lemma skipn_nth_cons {A : Type} (d : A) (l : list A) (i : nat) :
  (i < length l)%nat -> skipn i l = nth i l d :: skipn (S i) l.
Proof.
  revert i. induction l as [| a l IH]; intros i Hi; cbn [length] in Hi.
  - lia.
  - destruct i as [| i]; [reflexivity |].
    cbn [skipn nth]. rewrite IH by lia. reflexivity.
Qed.

Lemma place_inside (buf : list byte) (beyond : memory) (i : Z) :
  0 <= i < Z.of_nat (length buf) ->
  place buf beyond i = nth (Z.to_nat i) buf x00.
Proof.
  intros Hi. unfold place.
  replace (0 <=? i) with true by (symmetry; apply Z.leb_le; lia).
  replace (i <? Z.of_nat (length buf)) with true
    by (symmetry; apply Z.ltb_lt; lia).
  reflexivity.
Qed.

Lemma synced_fresh (buf : list byte) (beyond : memory) :
  synced buf beyond (bitstring buf) (fresh buf beyond).
Proof.
  constructor; cbn; try lia; try reflexivity.
  - constructor.
  - exists []. repeat split.
Qed.

(** The bits still to come number [bits] plus eight for each unread byte. *)
Lemma synced_length (buf : list byte) (beyond : memory) (rest : list bool)
    (br : BitReader.t) :
  synced buf beyond rest br ->
  Z.of_nat (length rest)
  = BitReader.bits br
    + 8 * (Z.of_nat (length buf) - Reader.curr (BitReader.r br)).
Proof.
  intros [_ _ Hcurr _ _ _ _ (pend & Hlen & Hrest & _) _].
  rewrite Hrest, length_app, bitstring_length, length_skipn. lia.
Qed.

(** A round of the refill loop with a byte left keeps the reader in step,
    on a target with an unsigned [char] or when no bit is pending. *)
Lemma synced_refilled (t : Target) (buf : list byte) (beyond : memory)
    (rest : list bool) (br : BitReader.t) :
  synced buf beyond rest br ->
  Reader.curr (BitReader.r br) < Z.of_nat (length buf) ->
  BitReader.bits br + 8 <= 63 ->
  char_signed t = false \/ BitReader.bits br = 0 ->
  Reader.err (snd (next_byte t (BitReader.r br))) = 0 /\
  synced buf beyond rest
    (refilled br (fst (next_byte t (BitReader.r br)))
              (snd (next_byte t (BitReader.r br)))).
Proof.
  intros [Hdata Hlen Hcurr HnRead Hrerr Herr Hloads (pend & Hpl & Hrest & Hval)
          Hsmall]
         Hlt H64 Hclean.
  assert (Hge : (Reader.curr (BitReader.r br) >=? Reader.len (BitReader.r br))
                = false).
  { rewrite Z.geb_leb. apply Z.leb_gt. lia. }
  split; [cbn [next_byte snd Reader.err]; rewrite Hge; exact Hrerr |].
  set (i := Z.to_nat (Reader.curr (BitReader.r br))).
  set (B := nth i buf x00).
  assert (HB : Reader.data (BitReader.r br) (Reader.curr (BitReader.r br)) = B).
  { rewrite Hdata. apply place_inside. lia. }
  constructor; cbn [refilled next_byte fst snd BitReader.r BitReader.n
                    BitReader.bits BitReader.nRead BitReader.err
                    Reader.data Reader.curr Reader.len Reader.err
                    Reader.loads]; try assumption; try lia.
  - rewrite Hge. exact Hrerr.
  - constructor; [lia | exact Hloads].
  - exists (pend ++ bits_of_byte B). repeat split.
    + rewrite length_app, bits_of_byte_length. lia.
    + rewrite Hrest. fold i.
      rewrite (skipn_nth_cons x00) by (subst i; lia). fold B.
      replace (Z.to_nat (Reader.curr (BitReader.r br) + 1)) with (S i)
        by (subst i; lia).
      cbn [bitstring flat_map]. fold (bitstring (skipn (S i) buf)).
      now rewrite app_assoc.
    + rewrite HB, bits_value_app, bits_of_byte_length, bits_of_byte_value.
      rewrite <- Hval.
      apply refill_low; try lia; [apply byte_val_range |].
      destruct Hclean as [Hu | H0].
      * rewrite (char_unsigned t B Hu). apply Z.mod_small.
        pose proof (byte_val_range B).
        assert (2 ^ 8 <= 2 ^ (BitReader.bits br + 8))
          by (apply Z.pow_le_mono_r; lia).
        lia.
      * rewrite H0. apply char_low_byte.
Qed.

Lemma app_split_at {A : Type} (l1 r1 l2 r2 : list A) :
  l1 ++ r1 = l2 ++ r2 -> (length l1 <= length l2)%nat ->
  exists m, l2 = l1 ++ m /\ r1 = m ++ r2.
Proof.
  revert l2. induction l1 as [| a l1 IH]; intros l2 Heq Hlen.
  - exists l2. split; [reflexivity | exact Heq].
  - destruct l2 as [| b l2]; cbn [length] in Hlen; [lia |].
    cbn [app] in Heq. injection Heq as Hab Heq.
    destruct (IH l2 Heq) as (m & Hl2 & Hr1); [lia |].
    exists m. split; [cbn [app]; congruence | exact Hr1].
Qed.

(** The extraction with enough bits pending returns the next [k] bits of the
    stream and keeps the reader in step. *)
Lemma synced_extracted (t : Target) (buf : list byte) (beyond : memory)
    (hd rest : list bool) (br : BitReader.t) (k : Z) :
  synced buf beyond (hd ++ rest) br ->
  Z.of_nat (length hd) = k -> k <= 30 -> k <= BitReader.bits br ->
  fst (extracted t br k) = bits_value hd /\
  synced buf beyond rest (snd (extracted t br k)).
Proof.
  intros [Hdata Hlen Hcurr HnRead Hrerr Herr Hloads (pend & Hpl & Hrest & Hval)
          Hsmall]
         Hk H30 Hle.
  destruct (app_split_at hd rest pend _ Hrest) as (m & Hpend & Hm); [lia |].
  assert (Hml : Z.of_nat (length m) = BitReader.bits br - k).
  { rewrite <- Hpl, Hpend, length_app. lia. }
  pose proof (bits_value_range m) as Hmr.
  pose proof (bits_value_range hd) as Hhr.
  assert (Hpos : 0 < 2 ^ Z.of_nat (length m)) by (apply Z.pow_pos_nonneg; lia).
  split.
  - cbn [extracted fst]. rewrite extract_top by lia.
    rewrite Hval, Hpend, bits_value_app, <- Hml.
    rewrite Z.div_add_l by lia. rewrite Z.div_small by lia. lia.
  - constructor; cbn [extracted snd BitReader.r BitReader.n BitReader.bits
                      BitReader.nRead BitReader.err]; try assumption;
      [| lia].
    exists m. repeat split; [lia | exact Hm |].
    rewrite <- (Z.mod_mod_divide _ (2 ^ BitReader.bits br))
      by (apply pow2_divides; lia).
    rewrite Hval, Hpend, bits_value_app, <- Hml.
    rewrite Z.add_comm, Z.mod_add by lia. apply Z.mod_small. lia.
Qed.

(** [read_bits] for [k] bits that the stream still holds. *)
Lemma read_bits_synced (t : Target) (buf : list byte) (beyond : memory)
    (hd rest : list bool) (k : Z) (br : BitReader.t) :
  synced buf beyond (hd ++ rest) br ->
  Z.of_nat (length hd) = k -> k <= 30 -> clean t br k ->
  fst (read_bits t br k) = bits_value hd /\
  synced buf beyond rest (snd (read_bits t br k)).
Proof.
  intros Hsy Hk H30.
  assert (Hrounds : exists j : nat, k - BitReader.bits br <= 8 * Z.of_nat j).
  { exists (Z.to_nat k). pose proof (sy_pending _ _ _ _ Hsy) as (p & Hp & _).
    lia. }
  destruct Hrounds as [j Hj]. revert br Hsy Hj.
  induction j as [| j IH]; intros br Hsy Hj Hclean.
  - rewrite read_bits_enough by lia.
    apply synced_extracted; try assumption; lia.
  - destruct (Z_gt_dec k (BitReader.bits br)) as [Hgt | Hle].
    + pose proof (synced_length _ _ _ _ Hsy) as Hlen.
      rewrite length_app in Hlen.
      pose proof (sy_pending _ _ _ _ Hsy) as (p & Hp & _).
      destruct (synced_refilled t buf beyond (hd ++ rest) br Hsy)
        as [Herr Hsy']; try lia.
      { destruct Hclean as [Hu | [Hle | [H0 _]]]; [now left | lia | now right]. }
      rewrite read_bits_refill by assumption.
      apply IH; [exact Hsy' | cbn [refilled BitReader.bits]; lia |].
      destruct Hclean as [Hu | [Hle | [H0 H8]]]; [now left | lia |].
      right. left. cbn [refilled BitReader.bits]. lia.
    + rewrite read_bits_enough by lia.
      apply synced_extracted; try assumption; lia.
Qed.

(** [read_bits(br, 1)] when the stream is exhausted: the error return, with
    both error flags raised and every byte of the buffer counted in
    [nRead]. *)
Lemma read_bit_exhausted (t : Target) (buf : list byte) (beyond : memory)
    (br : BitReader.t) :
  synced buf beyond [] br ->
  fst (read_bits t br 1) = 0 /\
  BitReader.err (snd (read_bits t br 1)) = 1 /\
  Reader.err (BitReader.r (snd (read_bits t br 1))) = 1 /\
  BitReader.nRead (snd (read_bits t br 1)) = Z.of_nat (length buf).
Proof.
  intros Hsy. pose proof (synced_length _ _ _ _ Hsy) as Hlen.
  destruct Hsy
    as [Hdata HL Hcurr HnRead Hrerr Herr Hloads (pend & Hpl & _) Hsmall].
  cbn [length] in Hlen.
  assert (Hb : BitReader.bits br = 0) by lia.
  assert (Hge : (Reader.curr (BitReader.r br) >=? Reader.len (BitReader.r br))
                = true) by (rewrite Z.geb_leb; apply Z.leb_le; lia).
  rewrite read_bits_fail.
  - cbn [fst snd failed next_byte BitReader.err BitReader.nRead BitReader.r
         Reader.err].
    rewrite Hge. repeat split. lia.
  - lia.
  - cbn [next_byte snd Reader.err]. rewrite Hge. discriminate.
Qed.

(** ** The loop of [read_levelprefix] *)

(** One bit can be read on any target: the refill for it happens only when
    no bit is pending. *)
Lemma read_bit_synced (t : Target) (buf : list byte) (beyond : memory)
    (b : bool) (rest : list bool) (br : BitReader.t) :
  synced buf beyond (b :: rest) br ->
  fst (read_bits t br 1) = Z.b2z b /\
  synced buf beyond rest (snd (read_bits t br 1)).
Proof.
  intros Hsy.
  pose proof (sy_pending _ _ _ _ Hsy) as (p & Hp & _).
  destruct (read_bits_synced t buf beyond [b] rest 1 br Hsy) as [Hv Hsy'];
    try reflexivity; try lia.
  { unfold clean. lia. }
  split; [| exact Hsy'].
  rewrite Hv. destruct b; reflexivity.
Qed.

Lemma int_of_uint64_bit (b : bool) : int_of_uint64 (Z.b2z b) = Z.b2z b.
Proof. destruct b; reflexivity. Qed.

Lemma wrap32_add_l (a b : Z) : wrap32 (wrap32 a + b) = wrap32 (a + b).
Proof.
  unfold wrap32. f_equal.
  replace ((a + 2 ^ 31) mod 2 ^ 32 - 2 ^ 31 + b + 2 ^ 31)
    with ((a + 2 ^ 31) mod 2 ^ 32 + b) by lia.
  rewrite Zplus_mod_idemp_l. f_equal. lia.
Qed.

Lemma counted_step (lz : Z) (j : nat) :
  counted (wrap32 (lz + 1)) j = counted lz (S j).
Proof.
  destruct j as [| j]; cbn [counted].
  - f_equal; lia.
  - rewrite wrap32_add_l. f_equal; lia.
Qed.

Lemma counted_last (lz : Z) (k : nat) :
  wrap32 (counted lz k + 1) = wrap32 (lz + Z.of_nat k + 1).
Proof.
  destruct k as [| k]; cbn [counted].
  - f_equal; lia.
  - now rewrite wrap32_add_l.
Qed.

(** A count that an [int] can hold is returned as it is. *)
Lemma first_count (k : nat) :
  Z.of_nat k < 2 ^ 31 -> wrap32 (-1 + Z.of_nat k + 1) = Z.of_nat k.
Proof.
  intros Hk. rewrite wrap32_small by lia. lia.
Qed.

(** One round of the loop that reads a bit with no error: [Hv] gives the bit
    read, [Hsy] the state of the reader after it. *)
Ltac loop_round Hv Hsy :=
  cbn [read_levelprefix_loop Z.eqb];
  destruct (read_bits _ _ 1) as [? ?]; cbn [fst snd] in *;
  rewrite (sy_err _ _ _ _ Hsy); cbn [Z.eqb negb];
  rewrite Hv, int_of_uint64_bit; cbn [Z.b2z Z.eqb].

(** Zero bits are counted one round each. *)
Lemma levelprefix_skip_zeros (t : Target) (buf : list byte) (beyond : memory)
    (j : nat) (rest : list bool) :
  forall br : BitReader.t,
    synced buf beyond (repeat false j ++ rest) br ->
    exists br',
      synced buf beyond rest br' /\
      forall (lz : Z) (fuel : nat),
        read_levelprefix_loop t (j + fuel) br lz 0
        = read_levelprefix_loop t fuel br' (counted lz j) 0.
Proof.
  induction j as [| j IH]; intros br Hsy.
  - exists br. split; [exact Hsy |]. intros lz fuel. reflexivity.
  - cbn [repeat app] in Hsy.
    destruct (read_bit_synced t _ _ _ _ _ Hsy) as [Hv Hsy'].
    destruct (IH _ Hsy') as (br' & Hsy'' & Hloop).
    exists br'. split; [exact Hsy'' |]. intros lz fuel.
    cbn [Nat.add]. loop_round Hv Hsy'.
    rewrite Hloop, counted_step. reflexivity.
Qed.

(** Fewer rounds than there are leading zero bits do not reach the end of
    the loop. *)
Lemma levelprefix_short_fuel (t : Target) (buf : list byte) (beyond : memory)
    (j : nat) (rest : list bool) :
  forall (br : BitReader.t) (lz : Z) (fuel : nat),
    synced buf beyond (repeat false j ++ rest) br -> (fuel <= j)%nat ->
    read_levelprefix_loop t fuel br lz 0 = None.
Proof.
  induction j as [| j IH]; intros br lz fuel Hsy Hfuel.
  - replace fuel with 0%nat by lia. reflexivity.
  - destruct fuel as [| fuel]; [reflexivity |].
    cbn [repeat app] in Hsy.
    destruct (read_bit_synced t _ _ _ _ _ Hsy) as [Hv Hsy'].
    loop_round Hv Hsy'.
    apply IH; [exact Hsy' | lia].
Qed.

(** The round that reads the one bit ends the loop with the count. *)
Lemma levelprefix_one (t : Target) (buf : list byte) (beyond : memory)
    (rest : list bool) (br : BitReader.t) :
  synced buf beyond (true :: rest) br ->
  exists br',
    synced buf beyond rest br' /\
    forall (lz : Z) (fuel : nat),
      read_levelprefix_loop t (S fuel) br lz 0
      = Some (wrap32 (lz + 1), br').
Proof.
  intros Hsy. destruct (read_bit_synced t _ _ _ _ _ Hsy) as [Hv Hsy'].
  exists (snd (read_bits t br 1)). split; [exact Hsy' |]. intros lz fuel.
  loop_round Hv Hsy'.
  destruct fuel; reflexivity.
Qed.

(** The round that finds the stream exhausted ends the loop with -1. *)
Lemma levelprefix_exhausted (t : Target) (buf : list byte) (beyond : memory)
    (br : BitReader.t) :
  synced buf beyond [] br ->
  exists br',
    BitReader.err br' = 1 /\
    Reader.err (BitReader.r br') = 1 /\
    BitReader.nRead br' = Z.of_nat (length buf) /\
    forall (lz : Z) (fuel : nat),
      read_levelprefix_loop t (S fuel) br lz 0 = Some (-1, br').
Proof.
  intros Hsy.
  destruct (read_bit_exhausted t _ _ _ Hsy) as (_ & Herr & Hrerr & Hn).
  exists (snd (read_bits t br 1)). repeat split; try assumption.
  intros lz fuel. cbn [read_levelprefix_loop Z.eqb].
  destruct (read_bits t br 1) as [v br1]. cbn [fst snd] in *.
  rewrite Herr. reflexivity.
Qed.

(** ** Where the first one bit is *)

Lemma first_one_split (l : list bool) (k : nat) :
  first_one_at l k -> l = repeat false k ++ true :: skipn (S k) l.
Proof.
  intros [Hz Ho].
  rewrite <- (firstn_skipn k l) at 1. rewrite Hz. f_equal.
  assert (Hk : (k < length l)%nat) by (apply nth_error_Some; congruence).
  rewrite (skipn_nth_cons false) by exact Hk.
  f_equal. now apply nth_error_nth.
Qed.

(** A bit string is some zeros followed by a one, or zeros only. *)
Lemma zeros_then (l : list bool) :
  (exists k, first_one_at l k) \/ l = repeat false (length l).
Proof.
  induction l as [| b l IH].
  - right. reflexivity.
  - destruct b.
    + left. exists 0%nat. split; reflexivity.
    + destruct IH as [[k [Hz Ho]] | Hall].
      * left. exists (S k). split; [cbn; now rewrite Hz | exact Ho].
      * right. cbn [length repeat]. now rewrite <- Hall.
Qed.

Lemma no_one_zeros (l : list bool) :
  ~ In true l -> l = repeat false (length l).
Proof.
  induction l as [| b l IH]; intros Hno; [reflexivity |].
  destruct b.
  - exfalso. apply Hno. now left.
  - cbn [length repeat]. rewrite <- IH; [reflexivity |].
    intros Hin. apply Hno. now right.
Qed.

(** ** The parser on a fresh reader *)

(** Zeros up to bit [k], then a one: [k + 1] rounds and the result [k]. *)
Lemma levelprefix_zeros_one (t : Target) (buf : list byte) (beyond : memory)
    (k : nat) (rest : list bool) (br : BitReader.t) :
  synced buf beyond (repeat false k ++ true :: rest) br ->
  exists br',
    BitReader.err br' = 0 /\
    forall (lz : Z) (fuel : nat), (k < fuel)%nat ->
      read_levelprefix_loop t fuel br lz 0
      = Some (wrap32 (lz + Z.of_nat k + 1), br').
Proof.
  intros Hsy.
  destruct (levelprefix_skip_zeros t _ _ _ _ _ Hsy) as (br1 & Hsy1 & Hloop).
  destruct (levelprefix_one t _ _ _ _ Hsy1) as (br2 & Hsy2 & Hone).
  exists br2. split; [exact (sy_err _ _ _ _ Hsy2) |].
  intros lz fuel Hfuel.
  replace fuel with (k + S (fuel - S k))%nat by lia.
  rewrite Hloop, Hone, counted_last. reflexivity.
Qed.

(** Zeros only, [j] of them: [j + 1] rounds, the last of which fails. *)
Lemma levelprefix_zeros_only (t : Target) (buf : list byte) (beyond : memory)
    (j : nat) (br : BitReader.t) :
  synced buf beyond (repeat false j) br ->
  exists br',
    BitReader.err br' = 1 /\
    Reader.err (BitReader.r br') = 1 /\
    BitReader.nRead br' = Z.of_nat (length buf) /\
    forall (lz : Z) (fuel : nat), (j < fuel)%nat ->
      read_levelprefix_loop t fuel br lz 0 = Some (-1, br').
Proof.
  intros Hsy. rewrite <- (app_nil_r (repeat false j)) in Hsy.
  destruct (levelprefix_skip_zeros t _ _ _ _ _ Hsy) as (br1 & Hsy1 & Hloop).
  destruct (levelprefix_exhausted t _ _ _ Hsy1)
    as (br2 & Herr & Hrerr & Hn & Hend).
  exists br2. repeat split; try assumption.
  intros lz fuel Hfuel.
  replace fuel with (j + S (fuel - S j))%nat by lia.
  rewrite Hloop, Hend. reflexivity.
Qed.

(** The buffer of [N] zero bytes followed by the byte [0x80] has its first
    one bit at index [8 * N]. *)
Lemma zero_bytes_then_one (N : nat) :
  first_one_at (bitstring (repeat x00 N ++ [x80])) (8 * N).
Proof.
  assert (Hzeros : bitstring (repeat x00 N) = repeat false (8 * N)).
  { induction N as [| N IH]; [reflexivity |].
    cbn [repeat bitstring flat_map]. fold (bitstring (repeat x00 N)).
    rewrite IH. replace (8 * S N)%nat with (8 + 8 * N)%nat by lia.
    reflexivity. }
  unfold bitstring in *. rewrite flat_map_app, Hzeros.
  split.
  - rewrite firstn_app, repeat_length, Nat.sub_diag, firstn_O, app_nil_r.
    rewrite <- (repeat_length false (8 * N)) at 1. apply firstn_all.
  - rewrite nth_error_app2 by (rewrite repeat_length; lia).
    rewrite repeat_length, Nat.sub_diag. reflexivity.
Qed.

(** On a buffer of [2^28] zero bytes followed by [0x80] the first one bit is
    bit [2^31], and [read_levelprefix] returns [-2^31] with no error
    raised: the [int] count has wrapped around. *)
Lemma read_levelprefix_count_wraps :
  first_one_at (bitstring (repeat x00 (Z.to_nat 268435456) ++ [x80]))
               (8 * Z.to_nat 268435456) /\
  Z.of_nat (8 * Z.to_nat 268435456) = 2147483648 /\
  exists br',
    read_levelprefix x86_64 (S (8 * Z.to_nat 268435456))
      (fresh (repeat x00 (Z.to_nat 268435456) ++ [x80]) silence)
    = Some (-2147483648, br') /\
    BitReader.err br' = 0.
Proof.
  assert (HN : Z.of_nat (Z.to_nat 268435456) = 268435456)
    by (apply Z2Nat.id; lia).
  revert HN. generalize (Z.to_nat 268435456). intros N HN.
  pose proof (zero_bytes_then_one N) as Hfirst.
  split; [exact Hfirst |]. split; [lia |].
  unfold read_levelprefix.
  pose proof (synced_fresh (repeat x00 N ++ [x80]) silence) as Hsy.
  rewrite (first_one_split _ _ Hfirst) in Hsy.
  destruct (levelprefix_zeros_one x86_64 _ _ _ _ _ Hsy) as (br' & Herr & Hres).
  exists br'. split; [| exact Herr].
  rewrite (Hres (-1) (S (8 * N)) (Nat.lt_succ_diag_r _)).
  do 2 f_equal.
  replace (-1 + Z.of_nat (8 * N) + 1) with 2147483648 by lia.
  reflexivity.
Qed.

(** C1, as the code has it.  If bit [k] of the buffer, read most
    significant bit first as one bit string, is its first one bit, and [k]
    is at most [2^31 - 1], the largest count the [int] result can hold,
    [read_levelprefix] on a fresh reader returns exactly [k] after [k + 1]
    rounds of its loop, with no error raised; when the very first bit is
    one the result is 0. *)
Theorem read_levelprefix_first_one (t : Target) (buf : list byte)
    (beyond : memory) (k fuel : nat) :
  first_one_at (bitstring buf) k -> Z.of_nat k < 2 ^ 31 -> (k < fuel)%nat ->
  exists br',
    read_levelprefix t fuel (fresh buf beyond) = Some (Z.of_nat k, br') /\
    BitReader.err br' = 0.
Proof.
  intros Hfirst Hint Hfuel. unfold read_levelprefix.
  pose proof (synced_fresh buf beyond) as Hsy.
  rewrite (first_one_split _ _ Hfirst) in Hsy.
  destruct (levelprefix_zeros_one t _ _ _ _ _ Hsy) as (br' & Herr & Hres).
  exists br'. split; [| exact Herr].
  rewrite (Hres _ _ Hfuel), first_count by exact Hint. reflexivity.
Qed.

Lemma read_levelprefix_first_one_witness :
  first_one_at (bitstring [x00; x80]) 8 /\
  Z.of_nat 8 < 2 ^ 31 /\
  exists br',
    read_levelprefix x86_64 9 (fresh [x00; x80] silence) = Some (8, br') /\
    BitReader.err br' = 0.
Proof.
  assert (H : first_one_at (bitstring [x00; x80]) 8) by (split; reflexivity).
  assert (Hint : Z.of_nat 8 < 2 ^ 31) by reflexivity.
  split; [exact H |]. split; [exact Hint |].
  apply (read_levelprefix_first_one x86_64 [x00; x80] silence 8 9 H Hint). lia.
Defined.

(** C4.  On a buffer with no one bit, the empty buffer included,
    [read_levelprefix] on a fresh reader returns -1 and leaves the error
    flag of the [BitReader] set, that of its [Reader] too, and [nRead]
    equal to the length of the buffer in bytes. *)
Theorem read_levelprefix_no_one (t : Target) (buf : list byte)
    (beyond : memory) (fuel : nat) :
  ~ In true (bitstring buf) -> (8 * length buf < fuel)%nat ->
  exists br',
    read_levelprefix t fuel (fresh buf beyond) = Some (-1, br') /\
    BitReader.err br' = 1 /\
    Reader.err (BitReader.r br') = 1 /\
    BitReader.nRead br' = Z.of_nat (length buf).
Proof.
  intros Hno Hfuel. unfold read_levelprefix.
  pose proof (synced_fresh buf beyond) as Hsy.
  rewrite (no_one_zeros _ Hno), bitstring_length in Hsy.
  destruct (levelprefix_zeros_only t _ _ _ _ Hsy)
    as (br' & Herr & Hrerr & Hn & Hres).
  exists br'. rewrite (Hres _ _ Hfuel). repeat split; assumption.
Qed.

Lemma read_levelprefix_no_one_witness :
  ~ In true (bitstring [x00; x00]) /\
  exists br',
    read_levelprefix x86_64 17 (fresh [x00; x00] silence) = Some (-1, br') /\
    BitReader.err br' = 1 /\
    Reader.err (BitReader.r br') = 1 /\
    BitReader.nRead br' = 2.
Proof.
  assert (H : ~ In true (bitstring [x00; x00])).
  { vm_compute. intuition discriminate. }
  split; [exact H |].
  apply (read_levelprefix_no_one x86_64 [x00; x00] silence 17 H).
  simpl. lia.
Defined.

(** C9.  [read_levelprefix] on a fresh reader terminates: its loop runs a
    definite number of rounds, at most [8 * len + 1], and returns; fewer
    rounds do not reach the return and more are not used. *)
Theorem read_levelprefix_terminates (t : Target) (buf : list byte)
    (beyond : memory) :
  exists (rounds : nat) (v : Z) (br' : BitReader.t),
    (rounds <= 8 * length buf + 1)%nat /\
    (forall fuel, (rounds <= fuel)%nat ->
       read_levelprefix t fuel (fresh buf beyond) = Some (v, br')) /\
    (forall fuel, (fuel < rounds)%nat ->
       read_levelprefix t fuel (fresh buf beyond) = None).
Proof.
  pose proof (synced_fresh buf beyond) as Hsy.
  destruct (zeros_then (bitstring buf)) as [[k Hfirst] | Hall].
  - assert (Hk : (k < 8 * length buf)%nat).
    { rewrite <- bitstring_length. apply nth_error_Some.
      destruct Hfirst as [_ Ho]. congruence. }
    rewrite (first_one_split _ _ Hfirst) in Hsy.
    destruct (levelprefix_zeros_one t _ _ _ _ _ Hsy) as (br' & _ & Hres).
    exists (S k), (wrap32 (-1 + Z.of_nat k + 1)), br'. split; [lia |]. split.
    + intros fuel Hfuel. apply Hres. lia.
    + intros fuel Hfuel.
      apply (levelprefix_short_fuel t _ _ _ _ _ _ _ Hsy). lia.
  - rewrite Hall, bitstring_length in Hsy.
    destruct (levelprefix_zeros_only t _ _ _ _ Hsy)
      as (br' & _ & _ & _ & Hres).
    exists (S (8 * length buf)), (-1), br'. split; [lia |]. split.
    + intros fuel Hfuel. apply Hres. lia.
    + intros fuel Hfuel.
      rewrite <- (app_nil_r (repeat false _)) in Hsy.
      apply (levelprefix_short_fuel t _ _ _ _ _ _ _ Hsy). lia.
Qed.

(** ** [read_bits] from any reader *)

(** Induction over the rounds of the refill loop. *)
Lemma read_bits_rounds (t : Target)
    (P : BitReader.t -> Z -> Z * BitReader.t -> Prop) :
  (forall br n, n <= BitReader.bits br -> P br n (extracted t br n)) ->
  (forall br n, n > BitReader.bits br ->
     Reader.err (snd (next_byte t (BitReader.r br))) <> 0 ->
     P br n (0, failed br (snd (next_byte t (BitReader.r br))))) ->
  (forall br n, n > BitReader.bits br ->
     Reader.err (snd (next_byte t (BitReader.r br))) = 0 ->
     forall br1,
       br1 = refilled br (fst (next_byte t (BitReader.r br)))
                      (snd (next_byte t (BitReader.r br))) ->
       P br1 n (read_bits t br1 n) -> P br n (read_bits t br1 n)) ->
  forall br n, P br n (read_bits t br n).
Proof.
  intros Hextract Hfail Hrefill br n.
  remember (Z.to_nat (n - BitReader.bits br)) as m eqn:Hm.
  revert br Hm. induction m as [m IH] using lt_wf_ind. intros br Hm.
  destruct (Z_gt_dec n (BitReader.bits br)) as [Hgt | Hle].
  - destruct (Z.eq_dec (Reader.err (snd (next_byte t (BitReader.r br)))) 0)
      as [Herr | Herr].
    + rewrite read_bits_refill by assumption.
      apply Hrefill; try assumption; [reflexivity |].
      apply (IH (Z.to_nat (n - (BitReader.bits br + 8)))); [lia | reflexivity].
    + rewrite read_bits_fail by assumption. now apply Hfail.
  - rewrite read_bits_enough by lia. apply Hextract. lia.
Qed.

(** [next_byte] never lowers the error flag of the [Reader]. *)
Lemma next_byte_err_sticky (t : Target) (r : Reader.t) :
  Reader.err r <> 0 -> Reader.err (snd (next_byte t r)) <> 0.
Proof.
  intros H. cbn [next_byte snd Reader.err].
  destruct (Reader.curr r >=? Reader.len r); [discriminate | exact H].
Qed.

Lemma read_bits_linked (t : Target) (br : BitReader.t) (n : Z) :
  linked br -> linked (snd (read_bits t br n)).
Proof.
  apply (read_bits_rounds t (fun br n res => linked br -> linked (snd res)));
    clear br n; unfold linked.
  - intros br n _ H. exact H.
  - intros br n _ Herr _ _. exact Herr.
  - intros br n _ Herr br1 -> IH H. apply IH.
    cbn [refilled BitReader.err BitReader.r]. intros Hb.
    now apply next_byte_err_sticky, H.
Qed.

(** [read_bits] never lowers the error flag of the [BitReader]. *)
Lemma read_bits_err_sticky (t : Target) (br : BitReader.t) (n : Z) :
  BitReader.err br <> 0 -> BitReader.err (snd (read_bits t br n)) <> 0.
Proof.
  apply (read_bits_rounds t
           (fun br n res =>
              BitReader.err br <> 0 -> BitReader.err (snd res) <> 0));
    clear br n.
  - intros br n _ H. exact H.
  - intros br n _ _ _. discriminate.
  - intros br n _ _ br1 -> IH H. apply IH. exact H.
Qed.

Lemma run_cons (t : Target) (br : BitReader.t) (n : Z) (calls : list Z) :
  run t br (n :: calls)
  = (fst (read_bits t br n) :: fst (run t (snd (read_bits t br n)) calls),
     snd (run t (snd (read_bits t br n)) calls)).
Proof.
  cbn [run]. destruct (read_bits t br n) as [v br1]. cbn [fst snd].
  destruct (run t br1 calls) as [vs br2]. reflexivity.
Qed.

Lemma run_linked (t : Target) (calls : list Z) :
  forall br, linked br -> linked (snd (run t br calls)).
Proof.
  induction calls as [| n calls IH]; intros br H; [exact H |].
  rewrite run_cons. cbn [snd]. now apply IH, read_bits_linked.
Qed.

Lemma run_err_sticky (t : Target) (calls : list Z) :
  forall br,
    BitReader.err br <> 0 -> BitReader.err (snd (run t br calls)) <> 0.
Proof.
  induction calls as [| n calls IH]; intros br H; [exact H |].
  rewrite run_cons. cbn [snd]. now apply IH, read_bits_err_sticky.
Qed.

(** The bit count after a call that leaves the error flag down. *)
Lemma read_bits_accounting (t : Target) (br : BitReader.t) (n : Z) :
  BitReader.err (snd (read_bits t br n)) = 0 ->
  BitReader.err br = 0 /\
  0 <= BitReader.bits (snd (read_bits t br n)) /\
  BitReader.bits (snd (read_bits t br n)) <= Z.max (BitReader.bits br - n) 7 /\
  BitReader.bits (snd (read_bits t br n))
  = BitReader.bits br
    + 8 * (BitReader.nRead (snd (read_bits t br n)) - BitReader.nRead br) - n.
Proof.
  apply (read_bits_rounds t
           (fun br n res =>
              BitReader.err (snd res) = 0 ->
              BitReader.err br = 0 /\
              0 <= BitReader.bits (snd res) /\
              BitReader.bits (snd res) <= Z.max (BitReader.bits br - n) 7 /\
              BitReader.bits (snd res)
              = BitReader.bits br
                + 8 * (BitReader.nRead (snd res) - BitReader.nRead br) - n));
    clear br n.
  - intros br n Hle H. cbn [extracted snd BitReader.err BitReader.bits
                            BitReader.nRead] in *. lia.
  - intros br n _ _ H. cbn [failed snd BitReader.err] in H. discriminate.
  - intros br n Hgt _ br1 -> IH H. specialize (IH H).
    cbn [refilled BitReader.err BitReader.bits BitReader.nRead] in IH.
    lia.
Qed.

Lemma run_accounting (t : Target) (calls : list Z) :
  forall br,
    Forall (fun n => 1 <= n) calls ->
    0 <= BitReader.bits br <= 7 ->
    BitReader.err (snd (run t br calls)) = 0 ->
    0 <= BitReader.bits (snd (run t br calls)) <= 7 /\
    BitReader.bits (snd (run t br calls))
    = BitReader.bits br
      + 8 * (BitReader.nRead (snd (run t br calls)) - BitReader.nRead br)
      - consumed calls.
Proof.
  induction calls as [| n calls IH]; intros br Hcalls Hbits Herr.
  - cbn [run snd consumed fold_right]. lia.
  - rewrite run_cons in *. cbn [snd] in *.
    inversion Hcalls as [| n' calls' Hn Hrest]; subst.
    assert (H1 : BitReader.err (snd (read_bits t br n)) = 0).
    { destruct (Z.eq_dec (BitReader.err (snd (read_bits t br n))) 0)
        as [E | E]; [exact E |].
      exfalso. now apply (run_err_sticky t calls _ E). }
    destruct (read_bits_accounting t br n H1) as (_ & Hlo & Hhi & Heq).
    destruct (IH (snd (read_bits t br n)) Hrest) as [Hb Hsum];
      [lia | exact Herr |].
    cbn [consumed fold_right]. fold (consumed calls). lia.
Qed.

(** C8.  After every [read_bits] call of a sequence in which no call has
    failed, the bits fetched so far, [8 * nRead], less the bits consumed so
    far are the [bits] field, and it lies between 0 and 7. *)
Theorem read_bits_no_overread (t : Target) (d : memory) (l : Z)
    (calls : list Z) :
  Forall (fun n => 1 <= n) calls ->
  BitReader.err (snd (run t (new_BitReader d l) calls)) = 0 ->
  8 * BitReader.nRead (snd (run t (new_BitReader d l) calls)) - consumed calls
  = BitReader.bits (snd (run t (new_BitReader d l) calls)) /\
  0 <= BitReader.bits (snd (run t (new_BitReader d l) calls)) <= 7.
Proof.
  intros Hcalls Herr.
  destruct (run_accounting t calls (new_BitReader d l) Hcalls) as [Hb Hsum];
    [cbn; lia | exact Herr |].
  cbn [new_BitReader BitReader.bits BitReader.nRead] in Hsum. lia.
Qed.

Lemma read_bits_no_overread_witness :
  BitReader.err (snd (run x86_64 (fresh [x12; x34; x56] silence) [3; 9; 5]))
  = 0 /\
  8 * BitReader.nRead (snd (run x86_64 (fresh [x12; x34; x56] silence) [3; 9; 5]))
  - consumed [3; 9; 5]
  = BitReader.bits (snd (run x86_64 (fresh [x12; x34; x56] silence) [3; 9; 5]))
  /\ 0 <= BitReader.bits
            (snd (run x86_64 (fresh [x12; x34; x56] silence) [3; 9; 5])) <= 7.
Proof.
  assert (H : BitReader.err
                (snd (run x86_64 (fresh [x12; x34; x56] silence) [3; 9; 5]))
              = 0) by (vm_compute; reflexivity).
  split; [exact H |].
  apply (read_bits_no_overread x86_64 (place [x12; x34; x56] silence) 3
           [3; 9; 5]); [repeat constructor; lia | exact H].
Defined.

(** ** After an error *)

(** A sequence of calls whose second one fails and whose third one is served
    from the bits still pending: on the buffer [0xFF], three bits, then
    eight, then three again. *)
Lemma read_bits_after_error_served :
  BitReader.err (snd (run x86_64 (fresh [xff] silence) [3; 8])) <> 0 /\
  fst (read_bits x86_64 (snd (run x86_64 (fresh [xff] silence) [3; 8])) 3) = 7.
Proof. vm_compute. split; [discriminate | reflexivity]. Qed.

(** C6, as the code has it.  Once the error flag of the [BitReader] is set,
    it stays set through every later [read_bits] call; a call that asks for
    more bits than are pending returns 0 and leaves the accumulator, [bits]
    and [nRead] as they were; a call that asks for no more than are pending
    is served from them as if no error had occurred. *)
Theorem read_bits_sticky_error (t : Target) (d : memory) (l : Z)
    (calls : list Z) (n : Z) :
  BitReader.err (snd (run t (new_BitReader d l) calls)) <> 0 ->
  BitReader.err (snd (read_bits t (snd (run t (new_BitReader d l) calls)) n))
  <> 0 /\
  (n > BitReader.bits (snd (run t (new_BitReader d l) calls)) ->
   fst (read_bits t (snd (run t (new_BitReader d l) calls)) n) = 0 /\
   BitReader.n (snd (read_bits t (snd (run t (new_BitReader d l) calls)) n))
   = BitReader.n (snd (run t (new_BitReader d l) calls)) /\
   BitReader.bits (snd (read_bits t (snd (run t (new_BitReader d l) calls)) n))
   = BitReader.bits (snd (run t (new_BitReader d l) calls)) /\
   BitReader.nRead (snd (read_bits t (snd (run t (new_BitReader d l) calls)) n))
   = BitReader.nRead (snd (run t (new_BitReader d l) calls))) /\
  (n <= BitReader.bits (snd (run t (new_BitReader d l) calls)) ->
   read_bits t (snd (run t (new_BitReader d l) calls)) n
   = extracted t (snd (run t (new_BitReader d l) calls)) n).
Proof.
  intros Herr.
  assert (Hlinked : linked (snd (run t (new_BitReader d l) calls))).
  { apply run_linked. intros H. cbn in H. congruence. }
  set (br := snd (run t (new_BitReader d l) calls)) in *.
  split; [now apply read_bits_err_sticky |]. split.
  - intros Hgt. rewrite read_bits_fail; [cbn; repeat split | exact Hgt |].
    now apply next_byte_err_sticky, Hlinked.
  - apply read_bits_enough.
Qed.

Lemma read_bits_sticky_error_witness :
  BitReader.err (snd (run x86_64 (fresh [xff] silence) [3; 8])) <> 0 /\
  BitReader.err
    (snd (read_bits x86_64 (snd (run x86_64 (fresh [xff] silence) [3; 8])) 8))
  <> 0 /\
  fst (read_bits x86_64 (snd (run x86_64 (fresh [xff] silence) [3; 8])) 8) = 0.
Proof.
  assert (H : BitReader.err (snd (run x86_64 (fresh [xff] silence) [3; 8]))
              <> 0) by (vm_compute; discriminate).
  split; [exact H |].
  destruct (read_bits_sticky_error x86_64 (place [xff] silence) 1 [3; 8] 8 H)
    as (Herr & Hfail & _).
  split; [exact Herr |]. apply Hfail. vm_compute. reflexivity.
Defined.

(** ** What lies beyond the buffer *)

Lemma same_view_next_byte (t : Target) (br1 br2 : BitReader.t) :
  same_view br1 br2 ->
  Reader.err (snd (next_byte t (BitReader.r br1)))
  = Reader.err (snd (next_byte t (BitReader.r br2))) /\
  (Reader.err (snd (next_byte t (BitReader.r br1))) = 0 ->
   fst (next_byte t (BitReader.r br1)) = fst (next_byte t (BitReader.r br2))).
Proof.
  intros [Hag Hc Hp Hl He Hlo _ _ _ _].
  cbn [next_byte fst snd Reader.err]. rewrite <- Hc, <- Hl, <- He.
  split; [reflexivity |].
  destruct (Reader.curr (BitReader.r br1) >=? Reader.len (BitReader.r br1))
    eqn:Hge; [discriminate |].
  intros _. f_equal. apply Hag.
  rewrite Z.geb_leb in Hge. apply Z.leb_gt in Hge. lia.
Qed.

Lemma read_bits_same_view (t : Target) (br1 : BitReader.t) (n : Z) :
  forall br2,
    same_view br1 br2 ->
    fst (read_bits t br1 n) = fst (read_bits t br2 n) /\
    same_view (snd (read_bits t br1 n)) (snd (read_bits t br2 n)).
Proof.
  apply (read_bits_rounds t
           (fun br1 n res =>
              forall br2,
                same_view br1 br2 ->
                fst res = fst (read_bits t br2 n) /\
                same_view (snd res) (snd (read_bits t br2 n))));
    clear br1 n.
  - intros br1 n Hle br2 Hsv.
    rewrite (read_bits_enough t br2) by (rewrite <- (sv_bits _ _ Hsv); lia).
    destruct Hsv as [Hag Hc Hp Hl He Hlo Hn Hb Hr Her].
    cbn [extracted fst snd]. rewrite Hn, Hb. split; [reflexivity |].
    constructor; cbn [BitReader.r BitReader.n BitReader.bits BitReader.nRead
                      BitReader.err]; try assumption; congruence.
  - intros br1 n Hgt Herr br2 Hsv.
    destruct (same_view_next_byte t _ _ Hsv) as [He' _].
    pose proof (sv_bits _ _ Hsv) as Hbits.
    rewrite (read_bits_fail t br2) by (try rewrite <- Hbits; congruence).
    destruct Hsv as [Hag Hc Hp Hl He Hlo Hn Hb Hr Her].
    cbn [fst snd]. split; [reflexivity |].
    constructor; cbn [failed next_byte snd BitReader.r BitReader.n
                      BitReader.bits BitReader.nRead BitReader.err
                      Reader.data Reader.curr Reader.len Reader.err
                      Reader.loads]; try assumption; try congruence; try lia.
  - intros br1 n Hgt Herr br1' -> IH br2 Hsv.
    destruct (same_view_next_byte t _ _ Hsv) as [He' Hb'].
    pose proof (sv_bits _ _ Hsv) as Hbits.
    rewrite (read_bits_refill t br2) by (try rewrite <- Hbits; congruence).
    apply IH.
    specialize (Hb' Herr).
    destruct Hsv as [Hag Hc Hp Hl He Hlo Hn Hb Hr Her].
    constructor; cbn [refilled BitReader.r BitReader.n BitReader.bits
                      BitReader.nRead BitReader.err];
      try congruence;
      cbn [next_byte snd Reader.data Reader.curr Reader.len Reader.err
           Reader.loads]; try assumption; try congruence; try lia.
Qed.

Lemma run_same_view (t : Target) (calls : list Z) :
  forall br1 br2,
    same_view br1 br2 ->
    fst (run t br1 calls) = fst (run t br2 calls) /\
    same_view (snd (run t br1 calls)) (snd (run t br2 calls)).
Proof.
  induction calls as [| n calls IH]; intros br1 br2 Hsv.
  - split; [reflexivity | exact Hsv].
  - rewrite !run_cons. cbn [fst snd].
    destruct (read_bits_same_view t br1 n br2 Hsv) as [Hv Hsv'].
    destruct (IH _ _ Hsv') as [Hvs Hsv''].
    split; [congruence | exact Hsv''].
Qed.

(** C10.  What memory holds outside the buffer is never observed: on two
    memories that agree on the [l] bytes of the buffer, every sequence of
    [read_bits] calls returns the same values and leaves the same error
    flag, accumulator, bit count and byte count. *)
Theorem read_bits_ignores_beyond (t : Target) (l : Z) (d1 d2 : memory)
    (calls : list Z) :
  agree l d1 d2 ->
  fst (run t (new_BitReader d1 l) calls)
  = fst (run t (new_BitReader d2 l) calls) /\
  BitReader.err (snd (run t (new_BitReader d1 l) calls))
  = BitReader.err (snd (run t (new_BitReader d2 l) calls)) /\
  BitReader.n (snd (run t (new_BitReader d1 l) calls))
  = BitReader.n (snd (run t (new_BitReader d2 l) calls)) /\
  BitReader.bits (snd (run t (new_BitReader d1 l) calls))
  = BitReader.bits (snd (run t (new_BitReader d2 l) calls)) /\
  BitReader.nRead (snd (run t (new_BitReader d1 l) calls))
  = BitReader.nRead (snd (run t (new_BitReader d2 l) calls)).
Proof.
  intros Hag.
  destruct (run_same_view t calls (new_BitReader d1 l) (new_BitReader d2 l))
    as [Hvs [_ _ _ _ _ _ Hn Hb Hr He]].
  - constructor; try reflexivity; try exact Hag.
  - repeat split; assumption.
Qed.

Lemma read_bits_ignores_beyond_witness :
  agree 1 (place [x2a] silence) (place [x2a] (fun _ => xff)) /\
  fst (run x86_64 (new_BitReader (place [x2a] silence) 1) [4; 8; 4])
  = fst (run x86_64 (new_BitReader (place [x2a] (fun _ => xff)) 1) [4; 8; 4]).
Proof.
  assert (H : agree 1 (place [x2a] silence) (place [x2a] (fun _ => xff))).
  { intros i Hi. replace i with 0 by lia. reflexivity. }
  split; [exact H |].
  exact (proj1 (read_bits_ignores_beyond x86_64 1 _ _ [4; 8; 4] H)).
Defined.

(** ** The end of the buffer *)

(** [next_byte] advances [curr] on every call. *)
Lemma next_byte_curr (t : Target) (r : Reader.t) :
  Reader.curr (snd (next_byte t r)) = Reader.curr r + 1.
Proof. reflexivity. Qed.

(** [next_byte] loads at [curr] on every call. *)
Lemma next_byte_loads (t : Target) (r : Reader.t) :
  Reader.loads (snd (next_byte t r)) = Reader.curr r :: Reader.loads r.
Proof. reflexivity. Qed.


(** A call of [next_byte] that raises the error flag has loaded from
    outside the buffer. *)
Lemma next_byte_raises (t : Target) (r : Reader.t) :
  Reader.err r = 0 -> Reader.err (snd (next_byte t r)) <> 0 ->
  Reader.len r <= Reader.curr r /\
  Reader.loads (snd (next_byte t r)) = Reader.curr r :: Reader.loads r.
Proof.
  intros H0 H1. split; [| reflexivity].
  cbn [next_byte snd Reader.err] in H1.
  destruct (Reader.curr r >=? Reader.len r) eqn:Hge; [| congruence].
  rewrite Z.geb_leb in Hge. now apply Z.leb_le.
Qed.

Lemma next_byte_safe (t : Target) (r : Reader.t) :
  safe r -> safe (snd (next_byte t r)).
Proof.
  intros [Hpos Hin]. unfold safe, in_bounds in *.
  cbn [next_byte snd Reader.curr Reader.err Reader.len Reader.loads].
  split; [lia |].
  destruct (Reader.curr r >=? Reader.len r) eqn:Hge; [discriminate |].
  intros H0. rewrite Z.geb_leb in Hge. apply Z.leb_gt in Hge.
  constructor; [lia | now apply Hin].
Qed.

Lemma read_bits_safe (t : Target) (br : BitReader.t) (n : Z) :
  safe (BitReader.r br) -> safe (BitReader.r (snd (read_bits t br n))).
Proof.
  apply (read_bits_rounds t
           (fun br n res =>
              safe (BitReader.r br) -> safe (BitReader.r (snd res))));
    clear br n.
  - intros br n _ H. exact H.
  - intros br n _ _ H. now apply next_byte_safe.
  - intros br n _ _ br1 -> IH H. apply IH. now apply next_byte_safe.
Qed.

(** While no error has been raised, every load of every [read_bits] call
    was inside the buffer. *)
Lemma run_in_bounds (t : Target) (d : memory) (l : Z) (calls : list Z) :
  Reader.err (BitReader.r (snd (run t (new_BitReader d l) calls))) = 0 ->
  in_bounds (BitReader.r (snd (run t (new_BitReader d l) calls))).
Proof.
  assert (Hsafe : forall br,
             safe (BitReader.r br) -> safe (BitReader.r (snd (run t br calls)))).
  { induction calls as [| n calls IH]; intros br H; [exact H |].
    rewrite run_cons. cbn [snd]. now apply IH, read_bits_safe. }
  apply Hsafe. split; [reflexivity | intros _; constructor].
Qed.

(** C5, at the empty buffer.  Two [read_bits(br, 1)] calls make two
    [next_byte] calls, both of which fail; the first leaves [err = 1] and
    [curr = 1], the second moves [curr] on to 2. *)
Theorem next_byte_advances_after_error (t : Target) (beyond : memory) :
  Reader.err (BitReader.r (snd (run t (fresh [] beyond) [1]))) = 1 /\
  Reader.curr (BitReader.r (snd (run t (fresh [] beyond) [1]))) = 1 /\
  Reader.err (BitReader.r (snd (run t (fresh [] beyond) [1; 1]))) = 1 /\
  Reader.curr (BitReader.r (snd (run t (fresh [] beyond) [1; 1]))) = 2.
Proof.
  rewrite !run_cons. cbn [run snd].
  rewrite (read_bits_fail t (fresh [] beyond)) by (cbn; (lia || discriminate)).
  cbn [snd]. rewrite read_bits_fail by (cbn; (lia || discriminate)).
  cbn. repeat split.
Qed.

(** C7, at the empty buffer.  [read_bits(br, 1)] on a fresh reader of
    length 0 loads [data[0]]: offset 0 is not below [len = 0]. *)
Theorem read_bits_loads_past_end (t : Target) (beyond : memory) :
  Reader.len (BitReader.r (snd (read_bits t (fresh [] beyond) 1))) = 0 /\
  Reader.loads (BitReader.r (snd (read_bits t (fresh [] beyond) 1))) = [0] /\
  ~ in_bounds (BitReader.r (snd (read_bits t (fresh [] beyond) 1))).
Proof.
  rewrite read_bits_fail by (cbn; (lia || discriminate)).
  cbn [snd failed BitReader.r next_byte fresh new_BitReader Reader.len
       Reader.loads Reader.curr length Z.of_nat].
  repeat split. unfold in_bounds. cbn [Reader.len Reader.loads].
  intros H. inversion H as [| i l Hi Hl]; subst. lia.
Qed.

(** ** Reads of more than one bit *)

(** [read_bits] of [n] bits on a fresh reader, on a target with an unsigned
    [char] or for at most eight bits: the first [n] bits of the buffer. *)
Lemma read_bits_first_bits (t : Target) (buf : list byte) (beyond : memory)
    (n : Z) :
  0 <= n <= 30 -> n <= 8 * Z.of_nat (length buf) ->
  char_signed t = false \/ n <= 8 ->
  fst (read_bits t (fresh buf beyond) n)
  = bits_value (firstn (Z.to_nat n) (bitstring buf)) /\
  BitReader.err (snd (read_bits t (fresh buf beyond) n)) = 0.
Proof.
  intros Hn Hlen Hclean.
  pose proof (synced_fresh buf beyond) as Hsy.
  rewrite <- (firstn_skipn (Z.to_nat n) (bitstring buf)) in Hsy.
  destruct (read_bits_synced t _ _ _ _ n _ Hsy) as [Hv Hsy'].
  - rewrite length_firstn, bitstring_length. lia.
  - lia.
  - unfold clean. cbn [fresh new_BitReader BitReader.bits]. tauto.
  - split; [exact Hv | exact (sy_err _ _ _ _ Hsy')].
Qed.

(** On a target with an unsigned [char], [read_bits(n)] followed by
    [read_bits(m)] on a fresh reader returns the two halves of what
    [read_bits(n + m)] returns on one. *)
Lemma read_bits_split_unsigned (t : Target) (buf : list byte)
    (beyond : memory) (n m : Z) :
  char_signed t = false ->
  0 <= n -> 0 <= m -> n + m <= 30 -> n + m <= 8 * Z.of_nat (length buf) ->
  fst (run t (fresh buf beyond) [n; m])
  = split_at m (fst (read_bits t (fresh buf beyond) (n + m))).
Proof.
  intros Hu Hn Hm H30 Hlen.
  pose proof (synced_fresh buf beyond) as Hsy.
  set (bs := bitstring buf) in *.
  set (h1 := firstn (Z.to_nat n) bs).
  set (h2 := firstn (Z.to_nat m) (skipn (Z.to_nat n) bs)).
  set (rest := skipn (Z.to_nat m) (skipn (Z.to_nat n) bs)).
  assert (Hbs : bs = h1 ++ h2 ++ rest).
  { subst h1 h2 rest. now rewrite !firstn_skipn. }
  assert (Hl : length bs = (8 * length buf)%nat) by apply bitstring_length.
  assert (Hl1 : Z.of_nat (length h1) = n).
  { subst h1. rewrite length_firstn. lia. }
  assert (Hl2 : Z.of_nat (length h2) = m).
  { subst h2. rewrite length_firstn, length_skipn. lia. }
  pose proof Hsy as Hsy12. rewrite Hbs in Hsy. rewrite Hbs, app_assoc in Hsy12.
  destruct (read_bits_synced t _ _ _ _ n _ Hsy) as [Hv1 Hsy1];
    [exact Hl1 | lia | now left |].
  destruct (read_bits_synced t _ _ _ _ m _ Hsy1) as [Hv2 _];
    [exact Hl2 | lia | now left |].
  destruct (read_bits_synced t _ _ _ _ (n + m) _ Hsy12) as [Hv12 _];
    [rewrite length_app; lia | lia | now left |].
  rewrite !run_cons. cbn [run fst]. rewrite Hv1, Hv2, Hv12.
  unfold split_at. rewrite bits_value_app, Hl2.
  pose proof (bits_value_range h2) as Hr. rewrite Hl2 in Hr.
  rewrite Z.div_add_l by lia. rewrite Z.div_small by lia.
  rewrite (Z.add_comm (bits_value h1 * 2 ^ m)), Z.mod_add by lia.
  rewrite Z.mod_small by lia.
  repeat f_equal. lia.
Qed.

(** On every target with a signed [char], the byte [0x80] fetched second
    overwrites the eight pending bits of the byte before it. *)
Lemma read_bits_signed_refill (t : Target) (beyond : memory) :
  char_signed t = true ->
  fst (read_bits t (fresh [x00; x80] beyond) 16) = 65408.
Proof.
  destruct t as [signed undefined shift]. cbn [char_signed]. intros ->.
  vm_compute. reflexivity.
Qed.

(** The same read with an unsigned [char]. *)
Example read_bits_unsigned_refill :
  fst (read_bits aarch64 (fresh [x00; x80] silence) 16) = 128.
Proof. reflexivity. Qed.

(** C2, on x86-64.  Sixteen bits from the buffer [0x00 0x80]: the bits read
    left to right are the number 128, [read_bits] returns 65408 with no
    error raised.  Thirty-two bits from [0xFF 0xFF 0xFF 0xFF]: the bits are
    the number 4294967295, [read_bits] returns 0 with no error raised. *)
Theorem read_bits_sign_extension (beyond : memory) :
  fst (read_bits x86_64 (fresh [x00; x80] beyond) 16) = 65408 /\
  BitReader.err (snd (read_bits x86_64 (fresh [x00; x80] beyond) 16)) = 0 /\
  bits_value (firstn 16 (bitstring [x00; x80])) = 128 /\
  fst (read_bits x86_64 (fresh [xff; xff; xff; xff] beyond) 32) = 0 /\
  BitReader.err (snd (read_bits x86_64 (fresh [xff; xff; xff; xff] beyond) 32))
  = 0 /\
  bits_value (firstn 32 (bitstring [xff; xff; xff; xff])) = 4294967295.
Proof. vm_compute. repeat split. Qed.

(** C3, on x86-64.  On the buffer [0x00 0x80], [read_bits(4)] then
    [read_bits(8)] return 0 and 248; a single [read_bits(12)] returns 4088,
    which splits into 15 and 248. *)
Theorem read_bits_split_differs (beyond : memory) :
  fst (run x86_64 (fresh [x00; x80] beyond) [4; 8]) = [0; 248] /\
  BitReader.err (snd (run x86_64 (fresh [x00; x80] beyond) [4; 8])) = 0 /\
  split_at 8 (fst (read_bits x86_64 (fresh [x00; x80] beyond) 12)) = [15; 248]
  /\
  BitReader.err (snd (read_bits x86_64 (fresh [x00; x80] beyond) 12)) = 0.
Proof. vm_compute. repeat split. Qed.

(** ** The scenarios of the specification *)

Example scenario_1 :
  option_map fst (read_levelprefix x86_64 9 (fresh [x80] silence)) = Some 0.
Proof. reflexivity. Qed.

Example scenario_2 :
  option_map fst (read_levelprefix x86_64 9 (fresh [x40] silence)) = Some 1.
Proof. reflexivity. Qed.

Example scenario_3 :
  option_map fst (read_levelprefix x86_64 9 (fresh [x01] silence)) = Some 7.
Proof. reflexivity. Qed.

Example scenario_4 :
  option_map fst (read_levelprefix x86_64 17 (fresh [x00; x80] silence))
  = Some 8.
Proof. reflexivity. Qed.

Example scenario_5 :
  option_map (fun res => (fst res, BitReader.err (snd res)))
             (read_levelprefix x86_64 9 (fresh [x00] silence))
  = Some (-1, 1).
Proof. reflexivity. Qed.

Example scenario_6 :
  option_map (fun res => (fst res, BitReader.err (snd res)))
             (read_levelprefix x86_64 1 (fresh [] silence))
  = Some (-1, 1).
Proof. reflexivity. Qed.

(** ** What every run keeps *)

Lemma wellformed_new (d : memory) (l : Z) : wellformed d l (new_BitReader d l).
Proof.
  constructor; cbn [new_BitReader BitReader.r BitReader.n BitReader.bits
                    BitReader.nRead BitReader.err Reader.data Reader.len
                    Reader.err Reader.curr]; try reflexivity; lia.
Qed.

Lemma read_bits_wellformed (t : Target) (d : memory) (l : Z)
    (br : BitReader.t) (n : Z) :
  wellformed d l br -> wellformed d l (snd (read_bits t br n)).
Proof.
  apply (read_bits_rounds t
           (fun br n res => wellformed d l br -> wellformed d l (snd res)));
    clear br n.
  - intros br n Hle [Hd Hl Hfs Hf Hn Hnl Hc Ho Hb].
    constructor; cbn [extracted snd BitReader.r BitReader.n BitReader.bits
                      BitReader.nRead BitReader.err]; try assumption; lia.
  - intros br n Hgt Herr [Hd Hl Hfs Hf Hn Hnl Hc Ho Hb].
    cbn [next_byte snd Reader.err] in Herr.
    constructor; cbn [failed next_byte snd BitReader.r BitReader.n
                      BitReader.bits BitReader.nRead BitReader.err
                      Reader.data Reader.len Reader.err Reader.curr];
      try assumption; try lia.
    + destruct (Reader.curr (BitReader.r br) >=? Reader.len (BitReader.r br));
        [reflexivity | lia].
    + intros _.
      destruct (Z.eq_dec (BitReader.err br) 0) as [E | E]; [| now apply Ho].
      destruct (Reader.curr (BitReader.r br) >=? Reader.len (BitReader.r br))
        eqn:Hge; [| lia].
      rewrite Z.geb_leb in Hge. apply Z.leb_le in Hge.
      specialize (Hc E). lia.
  - intros br n Hgt Herr br1 -> IH [Hd Hl Hfs Hf Hn Hnl Hc Ho Hb].
    apply IH. cbn [next_byte snd Reader.err] in Herr.
    destruct (Reader.curr (BitReader.r br) >=? Reader.len (BitReader.r br))
      eqn:Hge; [discriminate |].
    pose proof Hge as Hlt. rewrite Z.geb_leb in Hlt. apply Z.leb_gt in Hlt.
    assert (E : BitReader.err br = 0) by lia.
    specialize (Hc E).
    constructor; cbn [refilled next_byte fst snd BitReader.r BitReader.n
                      BitReader.bits BitReader.nRead BitReader.err
                      Reader.data Reader.len Reader.err Reader.curr];
      try assumption; try lia.
    rewrite Hge. exact Hfs.
Qed.

Lemma run_wellformed (t : Target) (d : memory) (l : Z) (calls : list Z) :
  forall br, wellformed d l br -> wellformed d l (snd (run t br calls)).
Proof.
  induction calls as [| n calls IH]; intros br H; [exact H |].
  rewrite run_cons. cbn [snd]. now apply IH, read_bits_wellformed.
Qed.

(** X1.  After every sequence of [read_bits] calls on a reader made by
    [new_BitReader], the error flag of the [BitReader] and that of its
    [Reader] are equal, and are 0 or 1. *)
Theorem error_flags_agree (t : Target) (d : memory) (l : Z) (calls : list Z) :
  Reader.err (BitReader.r (snd (run t (new_BitReader d l) calls)))
  = BitReader.err (snd (run t (new_BitReader d l) calls)) /\
  (BitReader.err (snd (run t (new_BitReader d l) calls)) = 0 \/
   BitReader.err (snd (run t (new_BitReader d l) calls)) = 1).
Proof.
  destruct (run_wellformed t d l calls _ (wellformed_new d l))
    as [_ _ Hfs Hf _ _ _ _ _].
  split; assumption.
Qed.

(** X2.  After every sequence of [read_bits] calls on a reader made by
    [new_BitReader(d, l)], [nRead] lies between 0 and [l] (0 for a negative
    [l]) and does not exceed [curr]; it equals [curr] as long as no error
    has been raised, and it equals the whole length once one has: the error
    is raised only after every byte of the buffer has been fetched. *)
Theorem nRead_counts_fetched (t : Target) (d : memory) (l : Z)
    (calls : list Z) :
  0 <= BitReader.nRead (snd (run t (new_BitReader d l) calls)) <= Z.max 0 l /\
  BitReader.nRead (snd (run t (new_BitReader d l) calls))
  <= Reader.curr (BitReader.r (snd (run t (new_BitReader d l) calls))) /\
  (BitReader.err (snd (run t (new_BitReader d l) calls)) = 0 ->
   Reader.curr (BitReader.r (snd (run t (new_BitReader d l) calls)))
   = BitReader.nRead (snd (run t (new_BitReader d l) calls))) /\
  (BitReader.err (snd (run t (new_BitReader d l) calls)) <> 0 ->
   BitReader.nRead (snd (run t (new_BitReader d l) calls)) = Z.max 0 l).
Proof.
  destruct (run_wellformed t d l calls _ (wellformed_new d l))
    as [_ _ _ _ Hn Hnl Hc Ho _].
  repeat split; try assumption; lia.
Qed.




(** X4.  For [0 <= n <= 30], whatever the reader and the target, the value
    [read_bits] returns fits in [n] bits: it lies in [0 .. 2^n - 1], on the
    error return as on the extraction. *)
Theorem read_bits_value_range (t : Target) (br : BitReader.t) (n : Z) :
  0 <= n <= 30 -> 0 <= fst (read_bits t br n) < 2 ^ n.
Proof.
  apply (read_bits_rounds t
           (fun br n res => 0 <= n <= 30 -> 0 <= fst res < 2 ^ n));
    clear br n.
  - intros br n _ Hn. cbn [extracted fst].
    rewrite int_mask_ones, Z.land_ones by lia.
    apply Z.mod_pos_bound. apply Z.pow_pos_nonneg; lia.
  - intros br n _ _ Hn. cbn [fst].
    assert (0 < 2 ^ n) by (apply Z.pow_pos_nonneg; lia). lia.
  - intros br n _ _ br1 -> IH Hn. now apply IH.
Qed.

Lemma read_bits_value_range_witness :
  0 <= 12 <= 30 /\
  0 <= fst (read_bits x86_64 (fresh [x00; x80] silence) 12) < 2 ^ 12.
Proof.
  assert (H : 0 <= 12 <= 30) by lia.
  split; [exact H |].
  exact (read_bits_value_range x86_64 (fresh [x00; x80] silence) 12 H).
Defined.


(** ** Loads and the error flag *)

Lemma next_byte_overrun (t : Target) (r : Reader.t) :
  (Reader.err r <> 0 -> ~ in_bounds r) ->
  Reader.err (snd (next_byte t r)) <> 0 -> ~ in_bounds (snd (next_byte t r)).
Proof.
  intros Hover Herr Hin. unfold in_bounds in *.
  cbn [next_byte snd Reader.err Reader.len Reader.loads] in *.
  inversion Hin as [| i loads Hi Hloads]; subst.
  destruct (Reader.curr r >=? Reader.len r) eqn:Hge.
  - rewrite Z.geb_leb in Hge. apply Z.leb_le in Hge. lia.
  - now apply Hover.
Qed.

Lemma read_bits_overrun (t : Target) (br : BitReader.t) (n : Z) :
  (Reader.err (BitReader.r br) <> 0 -> ~ in_bounds (BitReader.r br)) ->
  Reader.err (BitReader.r (snd (read_bits t br n))) <> 0 ->
  ~ in_bounds (BitReader.r (snd (read_bits t br n))).
Proof.
  apply (read_bits_rounds t
           (fun br n res =>
              (Reader.err (BitReader.r br) <> 0 -> ~ in_bounds (BitReader.r br))
              -> Reader.err (BitReader.r (snd res)) <> 0 ->
              ~ in_bounds (BitReader.r (snd res))));
    clear br n.
  - intros br n _ H. exact H.
  - intros br n _ _ H. now apply next_byte_overrun.
  - intros br n _ _ br1 -> IH H. apply IH. now apply next_byte_overrun.
Qed.

(** X6.  After every sequence of [read_bits] calls on a reader made by
    [new_BitReader], every load made so far was inside the buffer if and
    only if the error flag of the [Reader] is still 0: no load leaves the
    buffer before the error is raised, and the call that raises it has
    loaded from outside. *)
Theorem loads_in_bounds_iff_no_error (t : Target) (d : memory) (l : Z)
    (calls : list Z) :
  in_bounds (BitReader.r (snd (run t (new_BitReader d l) calls))) <->
  Reader.err (BitReader.r (snd (run t (new_BitReader d l) calls))) = 0.
Proof.
  split; [| apply run_in_bounds].
  assert (Hover : forall br,
             (Reader.err (BitReader.r br) <> 0 -> ~ in_bounds (BitReader.r br))
             -> Reader.err (BitReader.r (snd (run t br calls))) <> 0 ->
             ~ in_bounds (BitReader.r (snd (run t br calls)))).
  { induction calls as [| n calls IH]; intros br H; [exact H |].
    rewrite run_cons. cbn [snd]. now apply IH, read_bits_overrun. }
  intros Hin.
  destruct (Z.eq_dec
              (Reader.err (BitReader.r (snd (run t (new_BitReader d l) calls))))
              0) as [E | E]; [exact E | exfalso].
  apply (Hover (new_BitReader d l)); try assumption.
  cbn. congruence.
Qed.

(** ** [next_byte] on its own *)

Lemma next_bytes_cons (t : Target) (r : Reader.t) (k : nat) :
  next_bytes t r (S k)
  = (fst (next_byte t r) :: fst (next_bytes t (snd (next_byte t r)) k),
     snd (next_bytes t (snd (next_byte t r)) k)).
Proof.
  cbn [next_bytes next_byte fst snd].
  destruct (next_bytes _ _ k) as [bs r']. reflexivity.
Qed.

Lemma next_bytes_inside (t : Target) (buf : list byte) (beyond : memory)
    (k : nat) :
  forall r : Reader.t,
    Reader.data r = place buf beyond ->
    Reader.len r = Z.of_nat (length buf) ->
    Reader.err r = 0 ->
    0 <= Reader.curr r ->
    Reader.curr r + Z.of_nat k <= Z.of_nat (length buf) ->
    fst (next_bytes t r k)
    = map (char_of_byte t) (firstn k (skipn (Z.to_nat (Reader.curr r)) buf)) /\
    Reader.err (snd (next_bytes t r k)) = 0 /\
    Reader.curr (snd (next_bytes t r k)) = Reader.curr r + Z.of_nat k /\
    Reader.len (snd (next_bytes t r k)) = Reader.len r /\
    Reader.data (snd (next_bytes t r k)) = Reader.data r.
Proof.
  induction k as [| k IH]; intros r Hd Hl He Hc Hk.
  - cbn [next_bytes fst snd firstn map]. repeat split; try assumption. lia.
  - rewrite next_bytes_cons. cbn [fst snd].
    assert (Hge : (Reader.curr r >=? Reader.len r) = false).
    { rewrite Z.geb_leb. apply Z.leb_gt. lia. }
    assert (H1 : Reader.data (snd (next_byte t r)) = place buf beyond)
      by exact Hd.
    assert (H2 : Reader.len (snd (next_byte t r)) = Z.of_nat (length buf))
      by exact Hl.
    assert (H3 : Reader.err (snd (next_byte t r)) = 0)
      by (cbn [next_byte snd Reader.err]; now rewrite Hge).
    assert (H4 : Reader.curr (snd (next_byte t r)) = Reader.curr r + 1)
      by reflexivity.
    destruct (IH (snd (next_byte t r)) H1 H2 H3) as (Hv & He' & Hc' & Hl' & Hd');
      [lia | lia |].
    rewrite Hv, He', Hc', Hl', Hd'.
    cbn [next_byte fst snd Reader.data Reader.len Reader.err Reader.curr].
    repeat split; try lia.
    rewrite (skipn_nth_cons x00 buf (Z.to_nat (Reader.curr r))) by lia.
    cbn [firstn map]. f_equal.
    + rewrite Hd, place_inside by lia. reflexivity.
    + do 3 f_equal. lia.
Qed.

(** X7.  On the [Reader] of a fresh reader over a buffer, [k] successive
    calls of [next_byte], [k] at most the length, return the first [k] bytes
    in order, each converted to [char], leave the error flag 0 and [curr]
    at [k]; the call that follows [len] such calls raises the error flag. *)
Theorem next_byte_in_order (t : Target) (buf : list byte) (beyond : memory)
    (k : nat) :
  (k <= length buf)%nat ->
  fst (next_bytes t (BitReader.r (fresh buf beyond)) k)
  = map (char_of_byte t) (firstn k buf) /\
  Reader.err (snd (next_bytes t (BitReader.r (fresh buf beyond)) k)) = 0 /\
  Reader.curr (snd (next_bytes t (BitReader.r (fresh buf beyond)) k))
  = Z.of_nat k /\
  Reader.err
    (snd (next_byte t
            (snd (next_bytes t (BitReader.r (fresh buf beyond))
                             (length buf))))) = 1.
Proof.
  intros Hk.
  assert (H0 : 0 <= Reader.curr (BitReader.r (fresh buf beyond)))
    by reflexivity.
  assert (Hc0 : Reader.curr (BitReader.r (fresh buf beyond)) = 0)
    by reflexivity.
  destruct (next_bytes_inside t buf beyond k (BitReader.r (fresh buf beyond))
              eq_refl eq_refl eq_refl H0)
    as (Hv & He & Hc & _); [rewrite Hc0; lia |].
  destruct (next_bytes_inside t buf beyond (length buf)
              (BitReader.r (fresh buf beyond)) eq_refl eq_refl eq_refl H0)
    as (_ & _ & Hc' & Hl' & _); [rewrite Hc0; lia |].
  rewrite Hc0 in *. cbn [skipn Z.to_nat] in Hv.
  repeat split; try assumption; try lia.
  cbn [next_byte snd Reader.err]. rewrite Hc', Hl'.
  cbn [fresh new_BitReader BitReader.r Reader.len].
  replace (0 + Z.of_nat (length buf) >=? Z.of_nat (length buf)) with true
    by (symmetry; rewrite Z.geb_leb; apply Z.leb_le; lia).
  reflexivity.
Qed.

Lemma next_byte_in_order_witness :
  (2 <= length [x12; xab; x7f])%nat /\
  fst (next_bytes x86_64 (BitReader.r (fresh [x12; xab; x7f] silence)) 2)
  = [18; -85].
Proof.
  assert (H : (2 <= length [x12; xab; x7f])%nat) by (simpl; lia).
  split; [exact H |].
  exact (proj1 (next_byte_in_order x86_64 [x12; xab; x7f] silence 2 H)).
Defined.

(** ** Sequences of reads *)

Lemma consumed_nonneg (calls : list Z) :
  Forall (fun n => 0 <= n) calls -> 0 <= consumed calls.
Proof.
  induction 1 as [| n calls Hn _ IH]; cbn [consumed fold_right]; [lia |].
  fold (consumed calls). lia.
Qed.

Lemma run_app (t : Target) (calls1 calls2 : list Z) :
  forall br,
    run t br (calls1 ++ calls2)
    = (fst (run t br calls1) ++ fst (run t (snd (run t br calls1)) calls2),
       snd (run t (snd (run t br calls1)) calls2)).
Proof.
  induction calls1 as [| n calls1 IH]; intros br.
  - cbn [app run fst snd]. now destruct (run t br calls2).
  - cbn [app]. rewrite !run_cons, IH. reflexivity.
Qed.

(** One call that the stream can serve: the next [n] bits, and the reader
    in step with what follows them. *)
Lemma read_bits_chunk (t : Target) (buf : list byte) (beyond : memory)
    (bs : list bool) (br : BitReader.t) (n : Z) :
  synced buf beyond bs br ->
  0 <= n <= 30 -> n <= Z.of_nat (length bs) -> clean t br n ->
  fst (read_bits t br n) = bits_value (firstn (Z.to_nat n) bs) /\
  synced buf beyond (skipn (Z.to_nat n) bs) (snd (read_bits t br n)).
Proof.
  intros Hsy Hn Hlen Hclean.
  rewrite <- (firstn_skipn (Z.to_nat n) bs) in Hsy.
  apply (read_bits_synced t buf beyond _ _ n br Hsy); try assumption; try lia.
  rewrite length_firstn. lia.
Qed.

Lemma run_chunks_unsigned (t : Target) (buf : list byte) (beyond : memory)
    (calls : list Z) :
  char_signed t = false ->
  forall (bs : list bool) (br : BitReader.t),
    synced buf beyond bs br ->
    Forall (fun n => 0 <= n <= 30) calls ->
    consumed calls <= Z.of_nat (length bs) ->
    fst (run t br calls) = chunks calls bs /\
    synced buf beyond (skipn (Z.to_nat (consumed calls)) bs)
           (snd (run t br calls)).
Proof.
  intros Hu. induction calls as [| n calls IH]; intros bs br Hsy Hcalls Hlen.
  - cbn. split; [reflexivity | exact Hsy].
  - inversion Hcalls as [| n' calls' Hn Hrest]; subst.
    cbn [consumed fold_right] in *. fold (consumed calls) in *.
    assert (H0 : 0 <= consumed calls).
    { apply consumed_nonneg. eapply Forall_impl; [| exact Hrest].
      cbn. intros; lia. }
    destruct (read_bits_chunk t buf beyond bs br n Hsy) as [Hv Hsy'];
      [lia | lia | now left |].
    destruct (IH _ _ Hsy' Hrest) as [Hvs Hsy''].
    { rewrite length_skipn. lia. }
    rewrite run_cons. cbn [fst snd chunks]. rewrite Hv, Hvs.
    split; [reflexivity |].
    rewrite skipn_skipn in Hsy''.
    replace (Z.to_nat (n + consumed calls))
      with (Z.to_nat (consumed calls) + Z.to_nat n)%nat by lia.
    exact Hsy''.
Qed.

(** X8.  On a target whose [char] is unsigned, a sequence of [read_bits]
    calls on a fresh reader, each for 0 to 30 bits and together for no more
    bits than the buffer holds, returns the numbers the bit string of the
    buffer yields when it is cut, from the left, into pieces of the lengths
    asked for, and leaves the error flag 0. *)
Theorem read_bits_sequence_unsigned (t : Target) (buf : list byte)
    (beyond : memory) (calls : list Z) :
  char_signed t = false ->
  Forall (fun n => 0 <= n <= 30) calls ->
  consumed calls <= 8 * Z.of_nat (length buf) ->
  fst (run t (fresh buf beyond) calls) = chunks calls (bitstring buf) /\
  BitReader.err (snd (run t (fresh buf beyond) calls)) = 0.
Proof.
  intros Hu Hcalls Hlen.
  destruct (run_chunks_unsigned t buf beyond calls Hu (bitstring buf)
              (fresh buf beyond) (synced_fresh buf beyond) Hcalls)
    as [Hv Hsy].
  - rewrite bitstring_length. lia.
  - split; [exact Hv | exact (sy_err _ _ _ _ Hsy)].
Qed.

Lemma read_bits_sequence_unsigned_witness :
  char_signed aarch64 = false /\
  fst (run aarch64 (fresh [x12; xab; x7f] silence) [4; 12; 3])
  = chunks [4; 12; 3] (bitstring [x12; xab; x7f]).
Proof.
  assert (H : char_signed aarch64 = false) by reflexivity.
  split; [exact H |].
  refine (proj1 (read_bits_sequence_unsigned aarch64 [x12; xab; x7f] silence
                   [4; 12; 3] H _ _)).
  - repeat constructor; lia.
  - vm_compute. discriminate.
Defined.

(** Reads of a width that divides 8 never refill over pending bits. *)
Lemma run_aligned (t : Target) (buf : list byte) (beyond : memory) (d : Z)
    (k : nat) :
  0 < d -> (d | 8) ->
  forall (bs : list bool) (br : BitReader.t),
    synced buf beyond bs br ->
    0 <= BitReader.bits br <= 7 -> (d | BitReader.bits br) ->
    d * Z.of_nat k <= Z.of_nat (length bs) ->
    fst (run t br (repeat d k)) = chunks (repeat d k) bs /\
    BitReader.err (snd (run t br (repeat d k))) = 0 /\
    BitReader.nRead (snd (run t br (repeat d k)))
    = Reader.curr (BitReader.r (snd (run t br (repeat d k)))).
Proof.
  intros Hd Hd8.
  assert (Hd8' : d <= 8) by (apply Z.divide_pos_le; [lia | exact Hd8]).
  induction k as [| k IH]; intros bs br Hsy Hbits Hdiv Hlen.
  - cbn [repeat run chunks fst snd].
    repeat split; [exact (sy_err _ _ _ _ Hsy) | exact (sy_nRead _ _ _ _ Hsy)].
  - cbn [repeat]. rewrite run_cons. cbn [fst snd chunks].
    destruct (read_bits_chunk t buf beyond bs br d Hsy) as [Hv Hsy'];
      [lia | lia | |].
    { unfold clean. destruct (Z.eq_dec (BitReader.bits br) 0) as [E | E].
      - right. right. lia.
      - right. left. apply Z.divide_pos_le; [lia | exact Hdiv]. }
    destruct (read_bits_accounting t br d (sy_err _ _ _ _ Hsy'))
      as (_ & Hlo & Hhi & Heq).
    destruct (IH _ _ Hsy') as (Hvs & Herr & Hn).
    + lia.
    + rewrite Heq. apply Z.divide_sub_r; [| apply Z.divide_refl].
      apply Z.divide_add_r; [exact Hdiv |].
      apply Z.divide_mul_l. exact Hd8.
    + rewrite length_skipn. lia.
    + rewrite Hv, Hvs. repeat split; assumption.
Qed.

(** X9.  On every target, signed [char] or not, [k] successive
    [read_bits] calls of one width [d] that divides 8 (1, 2, 4 or 8) on a
    fresh reader whose buffer holds [d * k] bits return the first [k] groups
    of [d] bits of the buffer, and leave the error flag 0. *)
Theorem read_bits_aligned (t : Target) (buf : list byte) (beyond : memory)
    (d : Z) (k : nat) :
  0 < d -> (d | 8) -> d * Z.of_nat k <= 8 * Z.of_nat (length buf) ->
  fst (run t (fresh buf beyond) (repeat d k))
  = chunks (repeat d k) (bitstring buf) /\
  BitReader.err (snd (run t (fresh buf beyond) (repeat d k))) = 0.
Proof.
  intros Hd Hd8 Hlen.
  destruct (run_aligned t buf beyond d k Hd Hd8 (bitstring buf)
              (fresh buf beyond) (synced_fresh buf beyond))
    as (Hv & Herr & _).
  - cbn. lia.
  - cbn. apply Z.divide_0_r.
  - rewrite bitstring_length. lia.
  - split; assumption.
Qed.

Lemma read_bits_aligned_witness :
  (4 | 8) /\
  fst (run x86_64 (fresh [x0f; x80] silence) (repeat 4 4))
  = chunks (repeat 4 4) (bitstring [x0f; x80]).
Proof.
  assert (H : (4 | 8)) by (exists 2; reflexivity).
  split; [exact H |].
  refine (proj1 (read_bits_aligned x86_64 [x0f; x80] silence 4 4 _ H _)).
  - lia.
  - vm_compute. discriminate.
Defined.

Lemma chunks_bytes (k : nat) :
  forall buf : list byte,
    (k <= length buf)%nat ->
    chunks (repeat 8 k) (bitstring buf) = map byte_val (firstn k buf).
Proof.
  induction k as [| k IH]; intros buf Hk; [reflexivity |].
  destruct buf as [| b buf]; cbn [length] in Hk; [lia |].
  cbn [repeat chunks firstn map bitstring flat_map].
  fold (bitstring buf).
  change (firstn (Z.to_nat 8) (bits_of_byte b ++ bitstring buf))
    with (bits_of_byte b).
  change (skipn (Z.to_nat 8) (bits_of_byte b ++ bitstring buf))
    with (bitstring buf).
  rewrite bits_of_byte_value, IH by lia. reflexivity.
Qed.

(** X10.  On every target, [k] successive [read_bits(br, 8)] calls on a
    fresh reader, [k] at most the length of the buffer, return the first [k]
    bytes of the buffer as numbers from 0 to 255, leave the error flag 0 and
    have fetched [k] bytes. *)
Theorem read_bits_bytes (t : Target) (buf : list byte) (beyond : memory)
    (k : nat) :
  (k <= length buf)%nat ->
  fst (run t (fresh buf beyond) (repeat 8 k)) = map byte_val (firstn k buf) /\
  BitReader.err (snd (run t (fresh buf beyond) (repeat 8 k))) = 0 /\
  BitReader.nRead (snd (run t (fresh buf beyond) (repeat 8 k))) = Z.of_nat k.
Proof.
  intros Hk.
  destruct (run_aligned t buf beyond 8 k) with (bs := bitstring buf)
                                                (br := fresh buf beyond)
    as (Hv & Herr & Hn);
    [lia | apply Z.divide_refl | apply synced_fresh | cbn; lia
     | cbn; apply Z.divide_0_r | rewrite bitstring_length; lia |].
  rewrite chunks_bytes in Hv by exact Hk.
  repeat split; try assumption.
  assert (Hcalls : Forall (fun n => 1 <= n) (repeat 8 k)).
  { apply Forall_forall. intros n Hin. apply repeat_spec in Hin. lia. }
  destruct (run_accounting t (repeat 8 k) (fresh buf beyond) Hcalls)
    as [Hb Hsum]; [cbn; lia | exact Herr |].
  cbn [fresh new_BitReader BitReader.bits BitReader.nRead] in Hsum.
  assert (Hc : consumed (repeat 8 k) = 8 * Z.of_nat k).
  { clear. induction k as [| k IH]; [reflexivity |].
    cbn [repeat consumed fold_right]. fold (consumed (repeat 8 k)). lia. }
  lia.
Qed.

Lemma read_bits_bytes_witness :
  (2 <= length [x12; xab; x7f])%nat /\
  fst (run x86_64 (fresh [x12; xab; x7f] silence) (repeat 8 2)) = [18; 171].
Proof.
  assert (H : (2 <= length [x12; xab; x7f])%nat) by (simpl; lia).
  split; [exact H |].
  exact (proj1 (read_bits_bytes x86_64 [x12; xab; x7f] silence 2 H)).
Defined.

(** ** A read that asks for more than is left *)

(** The extraction seen on the pending bits alone. *)
Lemma extract_pending (t : Target) (a bits k : Z) (hd m : list bool) :
  0 <= k <= 30 -> Z.of_nat (length hd) = k ->
  bits = k + Z.of_nat (length m) -> bits <= 63 ->
  a mod 2 ^ bits = bits_value (hd ++ m) ->
  Z.land (shr_uint64 t a (bits - k)) (to_uint64 (int_mask t k))
  = bits_value hd /\
  a mod 2 ^ (bits - k) = bits_value m.
Proof.
  intros Hk Hhd Hbits H63 Hval.
  pose proof (bits_value_range m) as Hmr.
  assert (Hpos : 0 < 2 ^ Z.of_nat (length m)) by (apply Z.pow_pos_nonneg; lia).
  replace (bits - k) with (Z.of_nat (length m)) by lia.
  split.
  - replace (Z.of_nat (length m)) with (bits - k) at 1 by lia.
    rewrite extract_top by lia.
    replace (bits - k) with (Z.of_nat (length m)) by lia.
    rewrite Hval, bits_value_app.
    rewrite Z.div_add_l by lia. rewrite Z.div_small by lia. lia.
  - rewrite <- (Z.mod_mod_divide _ (2 ^ bits)) by (apply pow2_divides; lia).
    rewrite Hval, bits_value_app.
    rewrite Z.add_comm, Z.mod_add by lia. apply Z.mod_small. lia.
Qed.

(** A call for more bits than the stream still holds fetches what is left
    of the buffer, fails, and leaves every remaining bit pending. *)
Lemma read_bits_short (t : Target) (buf : list byte) (beyond : memory)
    (rest : list bool) (k : Z) (j : nat) :
  char_signed t = false -> k <= 30 -> Z.of_nat (length rest) < k ->
  forall br : BitReader.t,
    synced buf beyond rest br ->
    Z.of_nat j = Z.of_nat (length buf) - Reader.curr (BitReader.r br) ->
    fst (read_bits t br k) = 0 /\
    drained buf rest (snd (read_bits t br k)).
Proof.
  intros Hu H30 Hshort.
  induction j as [| j IH]; intros br Hsy Hj.
  - pose proof (synced_length _ _ _ _ Hsy) as Hlen.
    destruct Hsy as [Hdata HL Hcurr HnRead Hrerr Herr Hloads
                     (pend & Hpl & Hrest & Hval) Hsmall].
    assert (Hge : (Reader.curr (BitReader.r br) >=? Reader.len (BitReader.r br))
                  = true) by (rewrite Z.geb_leb; apply Z.leb_le; lia).
    rewrite skipn_all2, app_nil_r in Hrest by lia. subst pend.
    rewrite read_bits_fail.
    + split; [reflexivity |].
      constructor; cbn [snd failed next_byte BitReader.err BitReader.r
                        BitReader.nRead BitReader.bits BitReader.n Reader.err];
        try assumption; try lia.
      now rewrite Hge.
    + lia.
    + cbn [next_byte snd Reader.err]. rewrite Hge. discriminate.
  - pose proof (synced_length _ _ _ _ Hsy) as Hlen.
    destruct (synced_refilled t buf beyond rest br Hsy) as [Herr Hsy'];
      [lia | lia | now left |].
    rewrite read_bits_refill by (assumption || lia).
    apply IH; [exact Hsy' |].
    cbn [refilled BitReader.r next_byte snd Reader.curr]. lia.
Qed.

(** After such a failure a call for no more bits than are pending is
    served, and what it leaves is pending still. *)
Lemma drained_read (t : Target) (buf : list byte) (hd rest : list bool)
    (br : BitReader.t) (m : Z) :
  drained buf (hd ++ rest) br ->
  Z.of_nat (length hd) = m -> m <= 30 ->
  fst (read_bits t br m) = bits_value hd /\
  drained buf rest (snd (read_bits t br m)).
Proof.
  intros [Herr Hrerr Hn Hbits Hval Hsmall] Hm H30.
  rewrite length_app in Hbits.
  rewrite read_bits_enough by lia.
  destruct (extract_pending t (BitReader.n br) (BitReader.bits br) m hd rest)
    as [Hv Hrest]; try assumption; try lia.
  split; [exact Hv |].
  constructor; cbn [extracted snd BitReader.err BitReader.r BitReader.nRead
                    BitReader.bits BitReader.n]; try assumption; lia.
Qed.

(** X11.  On a target whose [char] is unsigned: after a sequence of calls
    that the buffer can serve, a call for more bits than are left (and at
    most 30) returns 0 and raises the error flag, having fetched every byte
    of the buffer; the bits that were left are not lost, and a call that
    follows for [m] of them returns the next [m] bits of the buffer, the
    error flag staying set. *)
Theorem read_bits_tail_after_failure (t : Target) (buf : list byte)
    (beyond : memory) (calls : list Z) (n m : Z) :
  char_signed t = false ->
  Forall (fun n => 0 <= n <= 30) calls ->
  consumed calls <= 8 * Z.of_nat (length buf) ->
  8 * Z.of_nat (length buf) - consumed calls < n <= 30 ->
  0 <= m <= 8 * Z.of_nat (length buf) - consumed calls ->
  fst (run t (fresh buf beyond) (calls ++ [n; m]))
  = chunks calls (bitstring buf)
    ++ [0; bits_value (firstn (Z.to_nat m)
                         (skipn (Z.to_nat (consumed calls)) (bitstring buf)))]
  /\ BitReader.err (snd (run t (fresh buf beyond) (calls ++ [n; m]))) = 1
  /\ BitReader.nRead (snd (run t (fresh buf beyond) (calls ++ [n; m])))
     = Z.of_nat (length buf).
Proof.
  intros Hu Hcalls Hlen Hn Hm.
  destruct (run_chunks_unsigned t buf beyond calls Hu (bitstring buf)
              (fresh buf beyond) (synced_fresh buf beyond) Hcalls)
    as [Hv Hsy]; [rewrite bitstring_length; lia |].
  assert (H0 : 0 <= consumed calls).
  { apply consumed_nonneg. eapply Forall_impl; [| exact Hcalls].
    cbn. intros; lia. }
  set (rest := skipn (Z.to_nat (consumed calls)) (bitstring buf)) in *.
  assert (Hrl : Z.of_nat (length rest)
                = 8 * Z.of_nat (length buf) - consumed calls).
  { subst rest. rewrite length_skipn, bitstring_length. lia. }
  set (br := snd (run t (fresh buf beyond) calls)) in *.
  destruct (read_bits_short t buf beyond rest n
              (Z.to_nat (Z.of_nat (length buf) - Reader.curr (BitReader.r br)))
              Hu) with (br := br) as [Hv1 Hdr]; try assumption; try lia.
  { pose proof (sy_curr _ _ _ _ Hsy). lia. }
  rewrite <- (firstn_skipn (Z.to_nat m) rest) in Hdr.
  destruct (drained_read t buf _ _ _ m Hdr) as [Hv2 Hdr'];
    [rewrite length_firstn; lia | lia |].
  rewrite run_app. fold br. rewrite !run_cons. cbn [run fst snd].
  rewrite Hv, Hv1, Hv2.
  split; [reflexivity |].
  split; [exact (dr_err _ _ _ Hdr') | exact (dr_nRead _ _ _ Hdr')].
Qed.

Lemma read_bits_tail_after_failure_witness :
  char_signed aarch64 = false /\
  fst (run aarch64 (fresh [xa5; x3c] silence) ([5] ++ [16; 11])) = [20; 0; 1340].
Proof.
  assert (H : char_signed aarch64 = false) by reflexivity.
  split; [exact H |].
  refine (proj1 (read_bits_tail_after_failure aarch64 [xa5; x3c] silence
                   [5] 16 11 H _ _ _ _)).
  - repeat constructor; lia.
  - vm_compute. discriminate.
  - vm_compute. split; [reflexivity | discriminate].
  - vm_compute. split; discriminate.
Defined.

(** ** The parser and what follows it *)

(** The loop hands the reader on in step with the bits after the one bit. *)
Lemma levelprefix_consumes (t : Target) (buf : list byte) (beyond : memory)
    (k : nat) (rest : list bool) (br : BitReader.t) :
  synced buf beyond (repeat false k ++ true :: rest) br ->
  exists br',
    synced buf beyond rest br' /\
    forall (lz : Z) (fuel : nat), (k < fuel)%nat ->
      read_levelprefix_loop t fuel br lz 0
      = Some (wrap32 (lz + Z.of_nat k + 1), br').
Proof.
  intros Hsy.
  destruct (levelprefix_skip_zeros t _ _ _ _ _ Hsy) as (br1 & Hsy1 & Hloop).
  destruct (levelprefix_one t _ _ _ _ Hsy1) as (br2 & Hsy2 & Hone).
  exists br2. split; [exact Hsy2 |].
  intros lz fuel Hfuel.
  replace fuel with (k + S (fuel - S k))%nat by lia.
  rewrite Hloop, Hone, counted_last. reflexivity.
Qed.

(** A loop that returns with the error flag down has left at most seven
    bits pending, if it started with at most seven. *)
Lemma levelprefix_bits_small (t : Target) (fuel : nat) :
  forall (br : BitReader.t) (lz b v : Z) (br' : BitReader.t),
    BitReader.bits br <= 7 ->
    read_levelprefix_loop t fuel br lz b = Some (v, br') ->
    BitReader.err br' = 0 ->
    BitReader.bits br' <= 7.
Proof.
  induction fuel as [| fuel IH]; intros br lz b v br' Hbits Hloop Herr.
  - cbn [read_levelprefix_loop] in Hloop.
    destruct (b =? 0); [discriminate |]. now inversion Hloop; subst.
  - cbn [read_levelprefix_loop] in Hloop.
    destruct (b =? 0); [| now inversion Hloop; subst].
    pose proof (read_bits_accounting t br 1) as Hacc.
    destruct (read_bits t br 1) as [v1 br1]. cbn [snd] in Hacc.
    destruct (BitReader.err br1 =? 0) eqn:E; cbn [negb] in Hloop.
    + apply Z.eqb_eq in E. destruct (Hacc E) as (_ & _ & Hhi & _).
      apply (IH br1 _ _ _ _ ltac:(lia) Hloop Herr).
    + inversion Hloop; subst. apply Z.eqb_neq in E. contradiction.
Qed.



(** X13.  [read_levelprefix] reads up to and including the first one bit
    and no further: called again on the reader it leaves, it returns the
    number of zero bits between that one bit and the next one.  This holds
    on every target, for counts of at most [2^31 - 1]. *)
Theorem read_levelprefix_twice (t : Target) (buf : list byte)
    (beyond : memory) (k1 k2 fuel : nat) :
  first_one_at (bitstring buf) k1 ->
  first_one_at (skipn (S k1) (bitstring buf)) k2 ->
  Z.of_nat k1 < 2 ^ 31 -> Z.of_nat k2 < 2 ^ 31 ->
  (k1 < fuel)%nat -> (k2 < fuel)%nat ->
  exists br1 br2,
    read_levelprefix t fuel (fresh buf beyond) = Some (Z.of_nat k1, br1) /\
    read_levelprefix t fuel br1 = Some (Z.of_nat k2, br2) /\
    BitReader.err br2 = 0.
Proof.
  intros H1 H2 Hi1 Hi2 Hf1 Hf2. unfold read_levelprefix.
  pose proof (synced_fresh buf beyond) as Hsy.
  rewrite (first_one_split _ _ H1) in Hsy.
  destruct (levelprefix_consumes t _ _ _ _ _ Hsy) as (br1 & Hsy1 & Hres1).
  rewrite (first_one_split _ _ H2) in Hsy1.
  destruct (levelprefix_consumes t _ _ _ _ _ Hsy1) as (br2 & Hsy2 & Hres2).
  exists br1, br2. rewrite (Hres1 _ _ Hf1), (Hres2 _ _ Hf2).
  rewrite !first_count by assumption.
  repeat split. exact (sy_err _ _ _ _ Hsy2).
Qed.

Lemma read_levelprefix_twice_witness :
  first_one_at (bitstring [x21; x80]) 2 /\
  first_one_at (skipn 3 (bitstring [x21; x80])) 4 /\
  Z.of_nat 2 < 2 ^ 31 /\ Z.of_nat 4 < 2 ^ 31 /\
  exists br1 br2,
    read_levelprefix x86_64 9 (fresh [x21; x80] silence) = Some (2, br1) /\
    read_levelprefix x86_64 9 br1 = Some (4, br2) /\
    BitReader.err br2 = 0.
Proof.
  assert (H1 : first_one_at (bitstring [x21; x80]) 2) by (split; reflexivity).
  assert (H2 : first_one_at (skipn 3 (bitstring [x21; x80])) 4)
    by (split; reflexivity).
  assert (Hi1 : Z.of_nat 2 < 2 ^ 31) by reflexivity.
  assert (Hi2 : Z.of_nat 4 < 2 ^ 31) by reflexivity.
  split; [exact H1 |]. split; [exact H2 |].
  split; [exact Hi1 |]. split; [exact Hi2 |].
  apply (read_levelprefix_twice x86_64 [x21; x80] silence 2 4 9 H1 H2 Hi1 Hi2);
    lia.
Defined.

(** X14.  After [read_levelprefix] has returned [k], at most [2^31 - 1],
    on a fresh reader, a [read_bits] call for [n] bits, [n] at most 30 and
    no more than the buffer still holds, returns the [n] bits that follow
    bit [k].  This
    holds on a target whose [char] is unsigned; on one whose [char] is
    signed it holds when the [n] bits lie in the byte of bit [k], or when
    bit [k] ends its byte and [n] is at most 8. *)
Theorem read_bits_after_levelprefix (t : Target) (buf : list byte)
    (beyond : memory) (k fuel : nat) (n : Z) :
  first_one_at (bitstring buf) k -> Z.of_nat k < 2 ^ 31 -> (k < fuel)%nat ->
  0 <= n <= 30 -> Z.of_nat k + 1 + n <= 8 * Z.of_nat (length buf) ->
  char_signed t = false \/ n <= 7 - Z.of_nat k mod 8 \/
  (Z.of_nat k mod 8 = 7 /\ n <= 8) ->
  exists br',
    read_levelprefix t fuel (fresh buf beyond) = Some (Z.of_nat k, br') /\
    fst (read_bits t br' n)
    = bits_value (firstn (Z.to_nat n) (skipn (S k) (bitstring buf))) /\
    BitReader.err (snd (read_bits t br' n)) = 0.
Proof.
  intros Hfirst Hint Hfuel Hn Hlen Hclean. unfold read_levelprefix.
  pose proof (synced_fresh buf beyond) as Hsy.
  rewrite (first_one_split _ _ Hfirst) in Hsy.
  destruct (levelprefix_consumes t _ _ _ _ _ Hsy) as (br' & Hsy' & Hres).
  specialize (Hres (-1) fuel Hfuel).
  rewrite first_count in Hres by exact Hint.
  exists br'. split; [exact Hres |].
  assert (Hsmall : BitReader.bits br' <= 7).
  { apply (levelprefix_bits_small t fuel (fresh buf beyond) (-1) 0
             (Z.of_nat k) br');
      [cbn; lia | exact Hres | exact (sy_err _ _ _ _ Hsy')]. }
  pose proof (synced_length _ _ _ _ Hsy') as Hl.
  pose proof (sy_pending _ _ _ _ Hsy') as (p & Hp & _).
  pose proof (sy_curr _ _ _ _ Hsy') as Hc.
  assert (Hk : (k < length (bitstring buf))%nat).
  { apply nth_error_Some. destruct Hfirst as [_ Ho]. congruence. }
  rewrite length_skipn, bitstring_length in Hl.
  pose proof (Z.div_mod (Z.of_nat k) 8 ltac:(lia)) as Hdm.
  pose proof (Z.mod_pos_bound (Z.of_nat k) 8 ltac:(lia)) as Hmb.
  assert (Hbits : BitReader.bits br' = 7 - Z.of_nat k mod 8) by lia.
  destruct (read_bits_chunk t buf beyond _ br' n Hsy') as [Hv Hsy''];
    [lia | rewrite length_skipn, bitstring_length; lia | |].
  { unfold clean. rewrite Hbits.
    destruct Hclean as [H | [H | [H7 H8]]];
      [now left | right; left; exact H | right; right; lia]. }
  split; [exact Hv | exact (sy_err _ _ _ _ Hsy'')].
Qed.

Lemma read_bits_after_levelprefix_witness :
  first_one_at (bitstring [x21; x80]) 2 /\
  Z.of_nat 2 < 2 ^ 31 /\
  exists br',
    read_levelprefix x86_64 9 (fresh [x21; x80] silence) = Some (2, br') /\
    fst (read_bits x86_64 br' 5) = 1 /\
    BitReader.err (snd (read_bits x86_64 br' 5)) = 0.
Proof.
  assert (H : first_one_at (bitstring [x21; x80]) 2) by (split; reflexivity).
  assert (Hint : Z.of_nat 2 < 2 ^ 31) by reflexivity.
  split; [exact H |]. split; [exact Hint |].
  apply (read_bits_after_levelprefix x86_64 [x21; x80] silence 2 9 5 H Hint);
    [lia | lia | vm_compute; discriminate
     | right; left; vm_compute; discriminate].
Defined.

(** X15.  On a reader whose error flag is set, [read_levelprefix] returns -1
    after a single [read_bits] call, whatever bits are pending and whatever
    that call returned; the error flag stays set. *)
Theorem read_levelprefix_after_error (t : Target) (br : BitReader.t)
    (fuel : nat) :
  BitReader.err br <> 0 ->
  read_levelprefix t (S fuel) br = Some (-1, snd (read_bits t br 1)) /\
  BitReader.err (snd (read_bits t br 1)) <> 0.
Proof.
  intros Herr. pose proof (read_bits_err_sticky t br 1 Herr) as Hsticky.
  split; [| exact Hsticky].
  unfold read_levelprefix. cbn [read_levelprefix_loop Z.eqb].
  destruct (read_bits t br 1) as [v br1]. cbn [snd] in *.
  apply Z.eqb_neq in Hsticky. rewrite Hsticky. reflexivity.
Qed.

Lemma read_levelprefix_after_error_witness :
  BitReader.err (snd (run x86_64 (fresh [xff] silence) [3; 8])) <> 0 /\
  option_map fst
    (read_levelprefix x86_64 1 (snd (run x86_64 (fresh [xff] silence) [3; 8])))
  = Some (-1).
Proof.
  assert (H : BitReader.err (snd (run x86_64 (fresh [xff] silence) [3; 8]))
              <> 0) by (vm_compute; discriminate).
  split; [exact H |].
  rewrite (proj1 (read_levelprefix_after_error x86_64 _ 0 H)). reflexivity.
Defined.

(** X16.  The value [read_levelprefix] returns on a fresh reader depends on
    the bytes of the buffer alone: it is the same on every target, signed
    [char] or not, and whatever memory holds outside the buffer. *)
Theorem read_levelprefix_portable (t1 t2 : Target) (buf : list byte)
    (beyond1 beyond2 : memory) (fuel : nat) :
  option_map fst (read_levelprefix t1 fuel (fresh buf beyond1))
  = option_map fst (read_levelprefix t2 fuel (fresh buf beyond2)).
Proof.
  unfold read_levelprefix.
  pose proof (synced_fresh buf beyond1) as Hsy1.
  pose proof (synced_fresh buf beyond2) as Hsy2.
  destruct (zeros_then (bitstring buf)) as [[k Hfirst] | Hall].
  - rewrite (first_one_split _ _ Hfirst) in Hsy1, Hsy2.
    destruct (le_lt_dec fuel k) as [Hle | Hlt].
    + rewrite (levelprefix_short_fuel t1 _ _ _ _ _ _ _ Hsy1 Hle).
      rewrite (levelprefix_short_fuel t2 _ _ _ _ _ _ _ Hsy2 Hle).
      reflexivity.
    + destruct (levelprefix_zeros_one t1 _ _ _ _ _ Hsy1) as (b1 & _ & H1).
      destruct (levelprefix_zeros_one t2 _ _ _ _ _ Hsy2) as (b2 & _ & H2).
      rewrite (H1 _ _ Hlt), (H2 _ _ Hlt). reflexivity.
  - rewrite Hall in Hsy1, Hsy2.
    destruct (le_lt_dec fuel (length (bitstring buf))) as [Hle | Hlt].
    + rewrite <- (app_nil_r (repeat false _)) in Hsy1, Hsy2.
      rewrite (levelprefix_short_fuel t1 _ _ _ _ _ _ _ Hsy1 Hle).
      rewrite (levelprefix_short_fuel t2 _ _ _ _ _ _ _ Hsy2 Hle).
      reflexivity.
    + destruct (levelprefix_zeros_only t1 _ _ _ _ Hsy1) as (b1 & _ & _ & _ & H1).
      destruct (levelprefix_zeros_only t2 _ _ _ _ Hsy2) as (b2 & _ & _ & _ & H2).
      rewrite (H1 _ _ Hlt), (H2 _ _ Hlt). reflexivity.
Qed.

(** X17.  On a fresh reader over a buffer of at most [2^28] bytes, so that
    every bit index fits the [int] count, [read_levelprefix] returns a
    value from -1 to [8 * len - 1], and the value tells failure from
    success: it is -1 exactly when the error flag is set afterwards, and
    exactly when the buffer has no one bit. *)
Theorem read_levelprefix_sentinel (t : Target) (buf : list byte)
    (beyond : memory) (fuel : nat) :
  8 * Z.of_nat (length buf) <= 2 ^ 31 ->
  (8 * length buf < fuel)%nat ->
  exists v br',
    read_levelprefix t fuel (fresh buf beyond) = Some (v, br') /\
    -1 <= v < 8 * Z.of_nat (length buf) /\
    (v = -1 <-> BitReader.err br' <> 0) /\
    (v = -1 <-> ~ In true (bitstring buf)).
Proof.
  intros Hint Hfuel. unfold read_levelprefix.
  pose proof (synced_fresh buf beyond) as Hsy.
  destruct (zeros_then (bitstring buf)) as [[k Hfirst] | Hall].
  - assert (Hk : (k < 8 * length buf)%nat).
    { rewrite <- bitstring_length. apply nth_error_Some.
      destruct Hfirst as [_ Ho]. congruence. }
    assert (Hv : wrap32 (-1 + Z.of_nat k + 1) = Z.of_nat k)
      by (apply first_count; lia).
    assert (Hin : In true (bitstring buf)).
    { destruct Hfirst as [_ Ho]. eapply nth_error_In. exact Ho. }
    rewrite (first_one_split _ _ Hfirst) in Hsy.
    destruct (levelprefix_zeros_one t _ _ _ _ _ Hsy) as (br' & Herr & Hres).
    exists (Z.of_nat k), br'.
    split; [rewrite <- Hv; apply Hres; lia |]. split; [lia |].
    split; split; intros H; try lia; contradiction.
  - assert (Hno : ~ In true (bitstring buf)).
    { rewrite Hall. intros Hin. apply repeat_spec in Hin. discriminate. }
    rewrite Hall, bitstring_length in Hsy.
    destruct (levelprefix_zeros_only t _ _ _ _ Hsy)
      as (br' & Herr & _ & _ & Hres).
    exists (-1), br'.
    split; [apply Hres; lia |]. split; [lia |].
    split; split; intros _; try reflexivity; try assumption.
    rewrite Herr. discriminate.
Qed.

Lemma read_levelprefix_sentinel_witness :
  8 * Z.of_nat (length [x00; x04]) <= 2 ^ 31 /\
  (8 * length [x00; x04] < 17)%nat /\
  exists v br',
    read_levelprefix x86_64 17 (fresh [x00; x04] silence) = Some (v, br') /\
    -1 <= v < 8 * Z.of_nat (length [x00; x04]) /\
    (v = -1 <-> BitReader.err br' <> 0) /\
    (v = -1 <-> ~ In true (bitstring [x00; x04])).
Proof.
  assert (Hint : 8 * Z.of_nat (length [x00; x04]) <= 2 ^ 31)
    by (vm_compute; discriminate).
  assert (H : (8 * length [x00; x04] < 17)%nat) by (simpl; lia).
  split; [exact Hint |]. split; [exact H |].
  exact (read_levelprefix_sentinel x86_64 [x00; x04] silence 17 Hint H).
Defined.
